(** * Tomahawk credentials manager

    A shallow embedding of
    [src/libtomahawk/accounts/CredentialsManager.cpp]: the in-memory
    credential cache of Tomahawk's account system and its bookkeeping of
    asynchronous QtKeychain jobs.

    The manager is a QObject driven by one event loop.  Its member
    functions are embedded as functions on an explicit state record that
    holds the three member hashes, the job objects the manager owns, and
    three append-only traces of its effects: the jobs handed to QtKeychain
    ([j->start()]), the signals emitted, and the lines logged. *)

From stdpp Require Import gmap strings list fin_maps.

Open Scope string_scope.
Open Scope list_scope.

(** ** Qt value types *)

Abbreviation QString := string (only parsing).
Abbreviation QStringList := (list string) (only parsing).
Abbreviation QByteArray := string (only parsing).

(** [QVariant], restricted to the kinds the manager meets: the invalid
    (default constructed) variant, strings, and string-keyed containers
    whose members are again such variants.  [QVariantHash] is
    [QHash<QString, QVariant>] and [QVariantMap] is [QMap<QString, QVariant>].
    On these kinds [QVariant::operator==] performs no conversion: variants
    of different kinds differ and variants of equal kind are compared by
    content. *)
#[warnings="-register-all"]
Inductive QVariant :=
| QVInvalid
| QVString (s : QString)
| QVHash (h : gmap QString QVariant)
| QVMap (m : gmap QString QVariant).

Abbreviation QVariantHash := (gmap string QVariant) (only parsing).
Abbreviation QVariantMap := (gmap string QVariant) (only parsing).

Inductive QVariantType := TInvalid | TString | THash | TMap.

#[global] Instance QVariantType_eq_dec : EqDecision QVariantType.
Proof. solve_decision. Defined.

Module QV.

Definition type (v : QVariant) : QVariantType :=
  match v with
  | QVInvalid => TInvalid
  | QVString _ => TString
  | QVHash _ => THash
  | QVMap _ => TMap
  end.

(** A string variant holding a null [QString] is null as well; the model
    does not tell a null string from an empty one, and every caller below
    tests [toString().isEmpty()] next to [isNull()]. *)
Definition isNull (v : QVariant) : bool :=
  match v with
  | QVInvalid => true
  | _ => false
  end.

Definition toString (v : QVariant) : QString :=
  match v with
  | QVString s => s
  | _ => ""
  end.

Definition toHash (v : QVariant) : QVariantHash :=
  match v with
  | QVHash h => h
  | _ => ∅
  end.

Definition toMap (v : QVariant) : QVariantMap :=
  match v with
  | QVMap m => m
  | _ => ∅
  end.

(** One position of two containers agrees: both lack the key, or both
    hold equal members. A disagreement leaves a mark. *)
Definition differ (eqb : QVariant → QVariant → bool)
    (x y : option QVariant) : option () :=
  match x, y with
  | Some u, Some v => if eqb u v then None else Some ()
  | None, None => None
  | _, _ => Some ()
  end.

(** [QVariant::operator==]. *)
Fixpoint eqb (a b : QVariant) {struct a} : bool :=
  match a, b with
  | QVInvalid, QVInvalid => true
  | QVString s, QVString t => bool_decide (s = t)
  | QVHash h, QVHash k => bool_decide (merge (differ eqb) h k = ∅)
  | QVMap h, QVMap k => bool_decide (merge (differ eqb) h k = ∅)
  | _, _ => false
  end.

Fixpoint size (v : QVariant) : nat :=
  match v with
  | QVInvalid | QVString _ => 1
  | QVHash h | QVMap h => S (map_fold (λ _ x n, size x + n) 0 h)
  end.

End QV.

Definition isEmpty_str (s : QString) : bool := bool_decide (s = "").
Definition isEmpty_hash (h : QVariantHash) : bool := bool_decide (h = ∅).

(** ** CredentialsStorageKey *)

Record CredentialsStorageKey := mkStorageKey {
  service : QString;
  key : QString
}.

#[global] Instance CredentialsStorageKey_eq_dec : EqDecision CredentialsStorageKey.
Proof. solve_decision. Defined.

#[global] Instance CredentialsStorageKey_countable : Countable CredentialsStorageKey.
Proof.
  apply (inj_countable' (λ k, (service k, key k))
                        (λ p, mkStorageKey p.1 p.2)).
  by intros [].
Defined.




(** ** QtKeychain jobs *)

Inductive JobClass := ReadPasswordJob | WritePasswordJob | DeletePasswordJob.

Inductive Error :=
| NoError
| EntryNotFound
| CouldNotDeleteEntry
| AccessDeniedByUser
| AccessDenied
| NoBackendAvailable
| NotImplemented
| OtherError.

#[global] Instance JobClass_eq_dec : EqDecision JobClass.
Proof. solve_decision. Defined.
#[global] Instance Error_eq_dec : EqDecision Error.
Proof. solve_decision. Defined.

(** A job object: what [new QKeychain::XxxPasswordJob( service, this )]
    allocates and the setters then fill in. *)
Record Job := mkJob {
  job_class : JobClass;
  job_service : QString;
  job_key : QString;
  job_textData : QString;
  job_autoDelete : bool;
  job_insecureFallback : bool;
  job_error : Error;
  job_errorString : QString
}.

#[global] Instance Job_eq_dec : EqDecision Job.
Proof. solve_decision. Defined.

Definition newJob (c : JobClass) (service : QString) : Job :=
  {| job_class := c; job_service := service; job_key := "";
     job_textData := ""; job_autoDelete := true;
     job_insecureFallback := false;
     job_error := NoError; job_errorString := "" |}.

Definition setKey (k : QString) (j : Job) : Job :=
  {| job_class := job_class j; job_service := job_service j; job_key := k;
     job_textData := job_textData j; job_autoDelete := job_autoDelete j;
     job_insecureFallback := job_insecureFallback j;
     job_error := job_error j; job_errorString := job_errorString j |}.

Definition setTextData (t : QString) (j : Job) : Job :=
  {| job_class := job_class j; job_service := job_service j;
     job_key := job_key j;
     job_textData := t; job_autoDelete := job_autoDelete j;
     job_insecureFallback := job_insecureFallback j;
     job_error := job_error j; job_errorString := job_errorString j |}.

Definition setAutoDelete (b : bool) (j : Job) : Job :=
  {| job_class := job_class j; job_service := job_service j;
     job_key := job_key j;
     job_textData := job_textData j; job_autoDelete := b;
     job_insecureFallback := job_insecureFallback j;
     job_error := job_error j; job_errorString := job_errorString j |}.

Definition setInsecureFallback (b : bool) (j : Job) : Job :=
  {| job_class := job_class j; job_service := job_service j;
     job_key := job_key j;
     job_textData := job_textData j; job_autoDelete := job_autoDelete j;
     job_insecureFallback := b;
     job_error := job_error j; job_errorString := job_errorString j |}.

Definition setError (e : Error) (msg : QString) (j : Job) : Job :=
  {| job_class := job_class j; job_service := job_service j;
     job_key := job_key j;
     job_textData := job_textData j; job_autoDelete := job_autoDelete j;
     job_insecureFallback := job_insecureFallback j;
     job_error := e; job_errorString := msg |}.

(** Job objects are referred to by pointer; [JobPtr] is the address. *)
Abbreviation JobPtr := nat (only parsing).

(** ** Effects: signals and log lines *)

Inductive Signal := serviceReady (service : QString).

#[global] Instance Signal_eq_dec : EqDecision Signal.
Proof. solve_decision. Defined.

Inductive LogLine :=
| DbgFuncInfo (fn : string)
| DbgKeysForService (service : QString) (accountIds : QStringList)
| DbgLaunchingReadJob (key : QString)
| DbgReadFinishedWithoutErrors (service key : QString)
| DbgReadFinishedWithError (service key : QString) (e : Error) (msg : QString)
| DbgAboutToWrite (key : QString)
| DbgCannotSerialize (key : QString)
| LogWriteJobFinished (service key : QString) (outcome : QString)
| LogDeleteJobFinished (service key : QString) (outcome : QString).

#[global] Instance LogLine_eq_dec : EqDecision LogLine.
Proof. solve_decision. Defined.

(** ** The manager's state *)

Record CredentialsManager := mkManager {
  m_services : gmap QString QStringList;
  m_credentials : gmap CredentialsStorageKey QVariant;
  m_readJobs : gmap QString (list JobPtr);
  (** the job objects alive, by address, and the next address [new] hands out *)
  jobs : gmap JobPtr Job;
  next_job : JobPtr;
  (** jobs handed to QtKeychain by [start()], as they were at that moment *)
  started : list (JobPtr * Job);
  (** signals emitted, oldest first *)
  emitted : list Signal;
  (** [tDebug()] and [tLog()] lines, oldest first *)
  logged : list LogLine
}.

Definition with_services (f : gmap QString QStringList → gmap QString QStringList)
    (st : CredentialsManager) : CredentialsManager :=
  mkManager (f (m_services st)) (m_credentials st) (m_readJobs st) (jobs st)
            (next_job st) (started st) (emitted st) (logged st).

Definition with_credentials
    (f : gmap CredentialsStorageKey QVariant → gmap CredentialsStorageKey QVariant)
    (st : CredentialsManager) : CredentialsManager :=
  mkManager (m_services st) (f (m_credentials st)) (m_readJobs st) (jobs st)
            (next_job st) (started st) (emitted st) (logged st).

Definition with_readJobs
    (f : gmap QString (list JobPtr) → gmap QString (list JobPtr))
    (st : CredentialsManager) : CredentialsManager :=
  mkManager (m_services st) (m_credentials st) (f (m_readJobs st)) (jobs st)
            (next_job st) (started st) (emitted st) (logged st).

Definition with_jobs (f : gmap JobPtr Job → gmap JobPtr Job)
    (st : CredentialsManager) : CredentialsManager :=
  mkManager (m_services st) (m_credentials st) (m_readJobs st) (f (jobs st))
            (next_job st) (started st) (emitted st) (logged st).

(** [emit sig]. *)
Definition emit (sig : Signal) (st : CredentialsManager) : CredentialsManager :=
  mkManager (m_services st) (m_credentials st) (m_readJobs st) (jobs st)
            (next_job st) (started st) (emitted st ++ [sig]) (logged st).

(** [tDebug() << ...] and [tLog() << ...]. *)
Definition tLog (l : LogLine) (st : CredentialsManager) : CredentialsManager :=
  mkManager (m_services st) (m_credentials st) (m_readJobs st) (jobs st)
            (next_job st) (started st) (emitted st) (logged st ++ [l]).

(** [new Job( ... )] followed by the setters: the finished object [job] is
    placed at a fresh address, which is returned. *)
Definition allocate (job : Job) (st : CredentialsManager)
    : JobPtr * CredentialsManager :=
  (next_job st,
   mkManager (m_services st) (m_credentials st) (m_readJobs st)
             (<[next_job st := job]> (jobs st))
             (S (next_job st)) (started st) (emitted st) (logged st)).

(** [j->start()]: QtKeychain takes the job as it is now. A dangling pointer
    starts nothing. *)
Definition start (j : JobPtr) (st : CredentialsManager) : CredentialsManager :=
  match jobs st !! j with
  | Some job =>
      mkManager (m_services st) (m_credentials st) (m_readJobs st) (jobs st)
                (next_job st) (started st ++ [(j, job)]) (emitted st) (logged st)
  | None => st
  end.

(** [j->deleteLater()]: the object is gone before the event loop delivers
    anything else about it. *)
Definition deleteLater (j : JobPtr) (st : CredentialsManager) : CredentialsManager :=
  with_jobs (delete j) st.

(** [m_readJobs.value( service )]: the list, empty when there is none. *)
Definition readJobs (st : CredentialsManager) (service : QString) : list JobPtr :=
  default [] (m_readJobs st !! service).

(** [m_readJobs[ service ]] on the non-const hash: the entry comes into
    being, empty, when it is missing. *)
Definition readJobs_ref (service : QString) (st : CredentialsManager)
    : CredentialsManager :=
  with_readJobs (λ m, <[service := default [] (m !! service)]> m) st.

(** [QList::removeOne]: drops the first occurrence, if there is one. *)
Fixpoint removeOne (x : JobPtr) (l : list JobPtr) : list JobPtr :=
  match l with
  | [] => []
  | y :: l' => if decide (x = y) then l' else y :: removeOne x l'
  end.

(** [CredentialsManager::CredentialsManager]. *)
Definition init : CredentialsManager :=
  tLog (DbgFuncInfo "CredentialsManager")
       (mkManager ∅ ∅ ∅ ∅ 0 [] [] []).

(** ** A codec for the examples

    QJson is a library of its own.  The closed examples at the end of the
    file run the manager with this table in its place: it knows the one
    bundle [bob], written [{user:bob}], and rejects every other text and
    every other hash. *)
Module Sample.

Definition bob : QVariantHash := {[ "user" := QVString "bob" ]}.

Definition toLatin1 (s : QString) : QByteArray := s.

Definition fromAscii (data : QByteArray) : QString := data.

Definition parse (data : QByteArray) : QVariant * bool :=
  if bool_decide (data = "{user:bob}")
  then (QVMap bob, true)
  else (QVInvalid, false).

Definition serialize (hash : QVariantHash) : QByteArray * bool :=
  if QV.eqb (QVHash hash) (QVHash bob)
  then ("{user:bob}", true)
  else ("", false).

Definition unix_not_mac : bool := true.

End Sample.

(** ** The member functions

    QJson, the two string conversions Qt applies on the way to and from it,
    and the build platform are outside the manager; they are parameters. *)

Section Manager.

Set Default Proof Using "Type".

(** [QString::toLatin1]. *)
Variable toLatin1 : QString → QByteArray.
(** [QJson::Parser::parse( data, &ok )]: the parsed variant and [ok]. *)
Variable parse : QByteArray → QVariant * bool.
(** [QJson::Serializer::serialize( hash, &ok )]: the bytes and [ok]. *)
Variable serialize : QVariantHash → QByteArray * bool.
(** The implicit [QString( const QByteArray& )] at [setTextData( data )]. *)
Variable fromAscii : QByteArray → QString.
(** [defined( Q_OS_UNIX ) && !defined( Q_OS_MAC )]. *)
Variable unix_not_mac : bool.

(** The platform block after a job is built. *)
Definition platformFallback (j : Job) : Job :=
  if unix_not_mac then setInsecureFallback true j else j.

(** One turn of the [foreach] in [loadCredentials]. *)
Definition launchReadJob (service : QString) (st : CredentialsManager)
    (key : QString) : CredentialsManager :=
  let job := platformFallback
               (setAutoDelete false
                  (setKey key (newJob ReadPasswordJob service))) in
  let '(j, st) := allocate job st in
  let st := with_readJobs
              (λ m, <[service := default [] (m !! service) ++ [j]]> m) st in
  let st := start j st in
  tLog (DbgLaunchingReadJob key) st.

Definition loadCredentials (service : QString) (st : CredentialsManager)
    : CredentialsManager :=
  let accountIds := default [] (m_services st !! service) in
  let st := tLog (DbgKeysForService service accountIds) st in
  let st := foldl (launchReadJob service) st accountIds in
  let st := readJobs_ref service st in
  if bool_decide (readJobs st service = [])
  then emit (serviceReady service) st
  else st.

Definition addService (service : QString) (accountIds : QStringList)
    (st : CredentialsManager) : CredentialsManager :=
  let st := if bool_decide (is_Some (m_services st !! service))
            then with_services (delete service) st
            else st in
  let st := with_services (<[service := accountIds]>) st in
  loadCredentials service st.

Definition keys (st : CredentialsManager) (svc : QString) : QStringList :=
  foldl (λ keys k, if bool_decide (service k = svc)
                   then keys ++ [key k] else keys)
        [] (map_to_list (m_credentials st)).*1.

Definition services (st : CredentialsManager) : QStringList :=
  (map_to_list (m_services st)).*1.

(** [credentials( csKey )]: [QHash::value], the invalid variant when the
    key is missing. *)
Definition credentials (st : CredentialsManager) (csKey : CredentialsStorageKey)
    : QVariant :=
  default QVInvalid (m_credentials st !! csKey).

Definition credentials2 (st : CredentialsManager) (serviceName key : QString)
    : QVariant :=
  credentials st (mkStorageKey serviceName key).

(** The test that opens [setCredentials]. *)
Definition isEmptyValue (value : QVariant) : bool :=
  QV.isNull value
  || (bool_decide (QV.type value = THash) && isEmpty_hash (QV.toHash value))
  || (bool_decide (QV.type value = TString) && isEmpty_str (QV.toString value)).

(** The tail shared by both branches of [setCredentials]. *)
Definition dispatch (job : Job) (st : CredentialsManager) : CredentialsManager :=
  let job := platformFallback (setAutoDelete false job) in
  let '(j, st) := allocate job st in
  start j st.

(** [setCredentials( csKey, value, tryToWriteAsString )], run under the
    mutex as one step.  [None] is the failed [Q_ASSERT] of a debug build;
    where the macro is compiled out, the call goes on to start the write
    job as it stands. *)
Definition setCredentials (csKey : CredentialsStorageKey) (value : QVariant)
    (tryToWriteAsString : bool) (st : CredentialsManager)
    : option CredentialsManager :=
  if isEmptyValue value then
    if bool_decide (is_Some (m_credentials st !! csKey)) then
      let st := with_credentials (delete csKey) st in
      let dj := setKey (key csKey)
                  (newJob DeletePasswordJob (service csKey)) in
      Some (dispatch dj st)
    else Some st
  else
    if QV.eqb value (credentials st csKey) then Some st
    else
      let st := with_credentials (<[csKey := value]>) st in
      let wj := setKey (key csKey)
                  (newJob WritePasswordJob (service csKey)) in
      if bool_decide (QV.type value = TString)
         || bool_decide (QV.type value = THash) then
        if tryToWriteAsString && bool_decide (QV.type value = TString) then
          Some (dispatch (setTextData (QV.toString value) wj) st)
        else if bool_decide (QV.type value = THash) then
          let '(data, ok) := serialize (QV.toHash value) in
          let st := if ok then tLog (DbgAboutToWrite (key csKey)) st
                    else tLog (DbgCannotSerialize (key csKey)) st in
          Some (dispatch (setTextData (fromAscii data) wj) st)
        else Some (dispatch wj st)
      else None.

(** The two overloads. *)
Definition setCredentials_hash (serviceName key : QString)
    (value : QVariantHash) (st : CredentialsManager) : option CredentialsManager :=
  setCredentials (mkStorageKey serviceName key) (QVHash value) false st.

Definition setCredentials_string (serviceName key : QString)
    (value : QString) (st : CredentialsManager) : option CredentialsManager :=
  setCredentials (mkStorageKey serviceName key) (QVString value) true st.

(** The copy loop from the parsed [QVariantMap] into a [QVariantHash]. *)
Definition hashOfMap (map : QVariantMap) : QVariantHash :=
  map_fold (λ k v (hash : QVariantHash), <[k := v]> hash) ∅ map.

(** What a successful read puts into the cache for its payload. *)
Definition decodeCredentials (textData : QString) : QVariant :=
  let '(creds, ok) := parse (toLatin1 textData) in
  let map := QV.toMap creds in
  let hash := hashOfMap map in
  let creds := QVHash hash in
  if negb ok || isEmpty_hash (QV.toHash creds)
  then QVString textData
  else creds.

Definition outcomeText (job : Job) : QString :=
  if bool_decide (job_error job = NoError)
  then "without error" else job_errorString job.

(** The slot [keychainJobFinished( j )].  The event loop only delivers
    [finished] for a job object that is alive. *)
Definition keychainJobFinished (j : JobPtr) (st : CredentialsManager)
    : CredentialsManager :=
  match jobs st !! j with
  | None => st
  | Some job =>
      let st := tLog (DbgFuncInfo "keychainJobFinished") st in
      let st :=
        match job_class job with
        | ReadPasswordJob =>
            let st :=
              if bool_decide (job_error job = NoError) then
                let st := tLog (DbgReadFinishedWithoutErrors
                                  (job_service job) (job_key job)) st in
                with_credentials
                  (<[mkStorageKey (job_service job) (job_key job)
                     := decodeCredentials (job_textData job)]>) st
              else
                tLog (DbgReadFinishedWithError (job_service job) (job_key job)
                        (job_error job) (job_errorString job)) st in
            let st := with_readJobs
                        (λ m, <[job_service job :=
                                  removeOne j (default [] (m !! job_service job))]> m)
                        st in
            let st := readJobs_ref (job_service job) st in
            if bool_decide (readJobs st (job_service job) = [])
            then emit (serviceReady (job_service job)) st
            else st
        | WritePasswordJob =>
            tLog (LogWriteJobFinished (job_service job) (job_key job)
                    (outcomeText job)) st
        | DeletePasswordJob =>
            tLog (LogDeleteJobFinished (job_service job) (job_key job)
                    (outcomeText job)) st
        end in
      deleteLater j st
  end.

(** ** QtKeychain finishing a job

    The backend records the result in the job object — the error, its
    text and, for a read, the data — and emits [finished( j )], which is
    connected to the slot above. *)
Record JobResult := mkResult {
  res_error : Error;
  res_errorString : QString;
  res_textData : QString
}.

Definition recordResult (r : JobResult) (job : Job) : Job :=
  let job := setError (res_error r) (res_errorString r) job in
  match job_class job with
  | ReadPasswordJob => setTextData (res_textData r) job
  | _ => job
  end.

Definition finished (j : JobPtr) (r : JobResult) (st : CredentialsManager)
    : CredentialsManager :=
  keychainJobFinished j (with_jobs (alter (recordResult r) j) st).

(** ** Runs of the manager *)

Inductive Call :=
| CallAddService (service : QString) (accountIds : QStringList)
| CallSetCredentials (csKey : CredentialsStorageKey) (value : QVariant)
                     (tryToWriteAsString : bool)
| JobFinished (j : JobPtr) (r : JobResult).

Definition step (c : Call) (st : CredentialsManager) : option CredentialsManager :=
  match c with
  | CallAddService service accountIds => Some (addService service accountIds st)
  | CallSetCredentials csKey value b => setCredentials csKey value b st
  | JobFinished j r => Some (finished j r st)
  end.

Fixpoint run (cs : list Call) (st : CredentialsManager)
    : option CredentialsManager :=
  match cs with
  | [] => Some st
  | c :: cs' =>
      match step c st with
      | Some st' => run cs' st'
      | None => None
      end
  end.


(** ** Notions the properties are stated with *)

(** No entry of the cache holds a value [setCredentials] would take for a
    request to delete. *)
Definition storeNonEmpty (st : CredentialsManager) : Prop :=
  ∀ csKey value, m_credentials st !! csKey = Some value →
                 isEmptyValue value = false.

(** How often [serviceReady( service )] occurs among signals. *)
Definition countReady (service : QString) (sigs : list Signal) : nat :=
  length (filter (λ sig, sig = serviceReady service) sigs).

(** The jobs QtKeychain reported as finished in a run. *)
Fixpoint finishedJobs (cs : list Call) : list JobPtr :=
  match cs with
  | [] => []
  | JobFinished j _ :: cs' => j :: finishedJobs cs'
  | _ :: cs' => finishedJobs cs'
  end.

(** [addService( service, _ )] is not called in a run. *)
Definition notRegistering (service : QString) (c : Call) : Prop :=
  match c with
  | CallAddService service' _ => service' ≠ service
  | _ => True
  end.

(** The read job [loadCredentials] builds for one key. *)
Definition readJobFor (service key : QString) : Job :=
  platformFallback
    (setAutoDelete false (setKey key (newJob ReadPasswordJob service))).

(** The addresses of the jobs of the load cycle that [addService] starts
    in [st] for [accountIds]. *)
Definition cycleJobs (st : CredentialsManager) (accountIds : QStringList)
    : list JobPtr :=
  seq (next_job st) (length accountIds).

(** The manager's bookkeeping of job objects is coherent: addresses in
    use lie below the next fresh one, the per-service lists hold exactly
    the read jobs alive for that service, each once. *)
Record jobsConsistent (st : CredentialsManager) : Prop := {
  jc_bound : ∀ j job, jobs st !! j = Some job → j < next_job st;
  jc_listed : ∀ j job, jobs st !! j = Some job →
                job_class job = ReadPasswordJob →
                j ∈ readJobs st (job_service job);
  jc_alive : ∀ service j, j ∈ readJobs st service →
               ∃ job, jobs st !! j = Some job
                      ∧ job_class job = ReadPasswordJob
                      ∧ job_service job = service;
  jc_nodup : ∀ service, NoDup (readJobs st service)
}.

(** The states the manager can be in: those a run of calls and job
    completions leads to from the freshly constructed manager. *)
Definition reachable (st : CredentialsManager) : Prop :=
  ∃ cs, run cs init = Some st.

(** No cached value is an invalid variant or a hash without members. *)
Definition cacheNeverNull (st : CredentialsManager) : Prop :=
  ∀ csKey value, m_credentials st !! csKey = Some value →
    value ≠ QVInvalid ∧ value ≠ QVHash ∅.

(** Jobs are started as soon as they are made, in the order of their
    addresses, and a job that is alive is as it was when it was started. *)
Definition jobsAsStarted (st : CredentialsManager) : Prop :=
  next_job st = length (started st)
  ∧ (∀ i p job, started st !! i = Some (p, job) → p = i)
  ∧ (∀ j job, jobs st !! j = Some job → started st !! j = Some (j, job)).

(** The settings every job gets before it is started. *)
Definition jobSettings (job : Job) : Prop :=
  job_autoDelete job = false
  ∧ job_insecureFallback job = unix_not_mac
  ∧ job_error job = NoError
  ∧ (job_class job ≠ WritePasswordJob → job_textData job = "").

(** Signals and outstanding reads only concern registered services. *)
Definition registeredOnly (st : CredentialsManager) : Prop :=
  (∀ s, serviceReady s ∈ emitted st → is_Some (m_services st !! s))
  ∧ (∀ j job, jobs st !! j = Some job → job_class job = ReadPasswordJob →
       is_Some (m_services st !! job_service job)).

(** ** QVariant: induction over members and equality *)

Lemma QVariant_members_ind (P : QVariant → Prop) :
  P QVInvalid →
  (∀ s, P (QVString s)) →
  (∀ h, map_Forall (λ _, P) h → P (QVHash h)) →
  (∀ m, map_Forall (λ _, P) m → P (QVMap m)) →
  ∀ v, P v.
Proof.
  intros HI HS HH HM v.
  remember (QV.size v) as n eqn:Hn. revert v Hn.
  induction (lt_wf n) as [n _ IH].
  assert (Hsub : ∀ h : gmap string QVariant,
             map_fold (λ _ x n, QV.size x + n) 0 h < n →
             map_Forall (λ _, P) h).
  { intros h.
    apply (map_fold_weak_ind (λ r m, r < n → map_Forall (λ _, P) m)).
    - intros _. apply map_Forall_empty.
    - intros i x m r Hi IHm Hlt. apply map_Forall_insert; [done|]. split.
      + apply (IH (QV.size x)); [lia|done].
      + apply IHm. lia. }
  intros [|s|h|m] ->; simpl in *; auto.
Qed.

Lemma differ_empty (h k : gmap string QVariant) :
  map_Forall (λ _ u, ∀ v, QV.eqb u v = true ↔ u = v) h →
  merge (QV.differ QV.eqb) h k = ∅ ↔ h = k.
Proof.
  intros IH. rewrite map_empty. split.
  - intros Hm. apply map_eq. intros i. specialize (Hm i).
    rewrite lookup_merge in Hm.
    destruct (h !! i) as [u|] eqn:Hu, (k !! i) as [v|] eqn:Hv;
      simpl in Hm; try done.
    destruct (QV.eqb u v) eqn:E; [|done].
    f_equal. by apply (IH i u Hu).
  - intros <- i. rewrite lookup_merge.
    destruct (h !! i) as [u|] eqn:Hu; simpl; [|done].
    by rewrite (proj2 (IH i u Hu u) eq_refl).
Qed.

Lemma QV_eqb_eq (a b : QVariant) : QV.eqb a b = true ↔ a = b.
Proof.
  revert b. induction a as [|s|h IH|h IH] using QVariant_members_ind;
    intros [|t|k|k]; simpl; try (split; [done|congruence]); try done.
  - rewrite bool_decide_eq_true. split; congruence.
  - rewrite bool_decide_eq_true, (differ_empty h k IH). split; congruence.
  - rewrite bool_decide_eq_true, (differ_empty h k IH). split; congruence.
Qed.

Lemma QV_eqb_refl (a : QVariant) : QV.eqb a a = true.
Proof. by apply QV_eqb_eq. Qed.

Lemma QV_eqb_neq (a b : QVariant) : QV.eqb a b = false ↔ a ≠ b.
Proof.
  rewrite <-QV_eqb_eq. destruct (QV.eqb a b); split; congruence.
Qed.


(** The values [setCredentials] reads as a request to delete are the
    invalid variant, the empty hash and the empty string. *)
Lemma isEmptyValue_spec (value : QVariant) :
  isEmptyValue value = true ↔
  value = QVInvalid ∨ value = QVHash ∅ ∨ value = QVString "".
Proof.
  unfold isEmptyValue, isEmpty_hash, isEmpty_str.
  destruct value as [|s|h|m]; simpl;
    rewrite ?andb_true_l, ?orb_false_r, ?bool_decide_eq_true.
  - split; [by left|done].
  - split; [intros ->; by right; right|intros [?|[?|?]]; congruence].
  - split; [intros ->; by right; left|intros [?|[?|?]]; congruence].
  - split; [done|intros [?|[?|?]]; congruence].
Qed.

Lemma hashOfMap_id (map : gmap string QVariant) : hashOfMap map = map.
Proof.
  unfold hashOfMap.
  apply (map_fold_weak_ind (λ (r m : gmap string QVariant), r = m)); [done|].
  by intros i x m r _ ->.
Qed.

(** Reduce projections out of updated states, and nothing else. *)
Ltac fields :=
  cbn [m_services m_credentials m_readJobs jobs next_job started emitted
       logged with_services with_credentials with_readJobs with_jobs
       emit tLog deleteLater readJobs_ref fst snd] in *.

(** ** setCredentials *)

Lemma dispatch_spec (job : Job) (st : CredentialsManager) :
  dispatch job st =
  mkManager (m_services st) (m_credentials st) (m_readJobs st)
    (<[next_job st := platformFallback (setAutoDelete false job)]> (jobs st))
    (S (next_job st))
    (started st ++ [(next_job st, platformFallback (setAutoDelete false job))])
    (emitted st) (logged st).
Proof.
  unfold dispatch, allocate, start; simpl. by rewrite lookup_insert_eq.
Qed.

Lemma platformFallback_fields (job : Job) :
  job_class (platformFallback job) = job_class job
  ∧ job_service (platformFallback job) = job_service job
  ∧ job_key (platformFallback job) = job_key job
  ∧ job_textData (platformFallback job) = job_textData job
  ∧ job_error (platformFallback job) = job_error job.
Proof. unfold platformFallback. by destruct unix_not_mac. Qed.

(** C5. A call of [setCredentials] with a null variant, an empty hash or
    an empty string returns at once, leaving the manager as it was, when
    the key has no entry in the cache.  When it has one, the call removes
    the entry of exactly that key and starts one delete job for the
    key's service and key; nothing else changes. *)
Theorem setCredentials_delete_path
    (csKey : CredentialsStorageKey) (value : QVariant)
    (tryToWriteAsString : bool) (st : CredentialsManager) :
  value = QVInvalid ∨ value = QVHash ∅ ∨ value = QVString "" →
  (m_credentials st !! csKey = None →
     setCredentials csKey value tryToWriteAsString st = Some st)
  ∧ (is_Some (m_credentials st !! csKey) →
     ∃ st' dj,
       setCredentials csKey value tryToWriteAsString st = Some st'
       ∧ m_credentials st' = delete csKey (m_credentials st)
       ∧ m_credentials st' !! csKey = None
       ∧ (∀ other, other ≠ csKey →
            m_credentials st' !! other = m_credentials st !! other)
       ∧ started st' = started st ++ [(next_job st, dj)]
       ∧ job_class dj = DeletePasswordJob
       ∧ job_service dj = service csKey
       ∧ job_key dj = key csKey
       ∧ m_services st' = m_services st
       ∧ m_readJobs st' = m_readJobs st
       ∧ emitted st' = emitted st).
Proof.
  intros Hempty. apply isEmptyValue_spec in Hempty.
  unfold setCredentials. rewrite Hempty. split.
  - intros Hnone. rewrite Hnone.
    rewrite bool_decide_eq_false_2; [done|]. by intros [? ?].
  - intros Hsome. rewrite bool_decide_eq_true_2 by done.
    eexists _, _. split; [reflexivity|].
    rewrite dispatch_spec; simpl.
    destruct (platformFallback_fields
                (setAutoDelete false
                   (setKey (key csKey)
                      (newJob DeletePasswordJob (service csKey)))))
      as (-> & -> & -> & _).
    repeat split; try done.
    + apply lookup_delete_eq.
    + intros other Hne. by apply lookup_delete_ne.
Qed.

(** A call of [setCredentials] that returns leaves the list of started
    jobs as it was or adds one job to it. *)
Lemma setCredentials_started
    (csKey : CredentialsStorageKey) (value : QVariant)
    (b : bool) (st st' : CredentialsManager) :
  setCredentials csKey value b st = Some st' →
  started st' = started st
  ∨ ∃ job, started st' = started st ++ [(next_job st, job)].
Proof.
  unfold setCredentials.
  repeat (case_match; simplify_eq/=); intros [= <-];
    rewrite ?dispatch_spec; simpl; eauto.
Qed.

(** The [Q_ASSERT] holds, and the call returns, for every string and every
    hash, and for every value taken as a request to delete. *)
Lemma setCredentials_returns
    (csKey : CredentialsStorageKey) (value : QVariant)
    (b : bool) (st : CredentialsManager) :
  isEmptyValue value = true ∨ QV.type value = TString ∨ QV.type value = THash →
  is_Some (setCredentials csKey value b st).
Proof.
  intros Hv. unfold setCredentials.
  destruct (isEmptyValue value) eqn:He.
  - by case_bool_decide.
  - destruct Hv as [Hv|Hv]; [done|].
    destruct (QV.eqb value (credentials st csKey)); [done|].
    destruct value as [|s|h|m]; cbn [QV.type] in *;
      try (destruct Hv; discriminate).
    + rewrite (bool_decide_eq_true_2 (TString = TString)) by done.
      cbn [orb]. destruct b; cbn [andb]; [done|].
      by rewrite (bool_decide_eq_false_2 (TString = THash)) by done.
    + rewrite (bool_decide_eq_true_2 (THash = THash)) by done.
      rewrite (bool_decide_eq_false_2 (THash = TString)) by done.
      cbn [orb]. rewrite andb_false_r.
      by destruct (serialize (QV.toHash (QVHash h))) as [data []].
Qed.

(** C4. A call of [setCredentials] whose value is not empty and equals
    the value cached for the key changes nothing: the cache stays as it
    is and no job is started.  So of two calls in a row with the same
    value the second is such a call, and together they start at most one
    job.  For a string or a hash the calls do return. *)
Theorem setCredentials_same_value
    (csKey : CredentialsStorageKey) (value : QVariant)
    (b b' : bool) (st : CredentialsManager) :
  isEmptyValue value = false →
  (m_credentials st !! csKey = Some value →
     setCredentials csKey value b st = Some st)
  ∧ (∀ st1, setCredentials csKey value b st = Some st1 →
       setCredentials csKey value b' st1 = Some st1
       ∧ (started st1 = started st
          ∨ ∃ wj, started st1 = started st ++ [(next_job st, wj)]))
  ∧ (QV.type value = TString ∨ QV.type value = THash →
     is_Some (setCredentials csKey value b st)).
Proof.
  intros Hne. split; [|split].
  - intros Hc. unfold setCredentials, credentials.
    by rewrite Hne, Hc, QV_eqb_refl.
  - intros st1 H1. split; [|by eapply setCredentials_started].
    assert (Hc : m_credentials st1 !! csKey = Some value).
    { revert H1. unfold setCredentials, credentials. rewrite Hne.
      destruct (QV.eqb value (default QVInvalid (m_credentials st !! csKey)))
        eqn:E.
      - intros [= <-]. apply QV_eqb_eq in E.
        destruct (m_credentials st !! csKey) as [v|]; simpl in E; [by subst|].
        subst value. done.
      - repeat (case_match; simplify_eq/=); intros [= <-];
          rewrite ?dispatch_spec; simpl; apply lookup_insert_eq. }
    unfold setCredentials, credentials.
    by rewrite Hne, Hc, QV_eqb_refl.
  - intros Hty. apply setCredentials_returns. by right.
Qed.

(** C10. A call of [setCredentials] with a string that is not empty,
    with [tryToWriteAsString] false, and with a value other than the
    cached one puts the string into the cache and starts a write job on
    which [setTextData] was never called: the job carries the default
    empty text, which is not the string. *)
Theorem setCredentials_string_not_as_string
    (csKey : CredentialsStorageKey) (s : QString) (st : CredentialsManager) :
  s ≠ "" →
  credentials st csKey ≠ QVString s →
  ∃ st' wj,
    setCredentials csKey (QVString s) false st = Some st'
    ∧ m_credentials st' = <[csKey := QVString s]> (m_credentials st)
    ∧ credentials st' csKey = QVString s
    ∧ started st' = started st ++ [(next_job st, wj)]
    ∧ job_class wj = WritePasswordJob
    ∧ job_service wj = service csKey
    ∧ job_key wj = key csKey
    ∧ job_textData wj = job_textData (newJob WritePasswordJob (service csKey))
    ∧ job_textData wj = ""
    ∧ job_textData wj ≠ s.
Proof.
  intros Hs Hc. apply not_eq_sym, QV_eqb_neq in Hc.
  unfold setCredentials.
  replace (isEmptyValue (QVString s)) with false; last first.
  { symmetry. apply not_true_is_false. rewrite isEmptyValue_spec.
    intros [|[|]]; congruence. }
  rewrite Hc. simpl.
  eexists _, _. split; [reflexivity|].
  rewrite dispatch_spec; simpl.
  destruct (platformFallback_fields
              (setAutoDelete false
                 (setKey (key csKey)
                    (newJob WritePasswordJob (service csKey)))))
    as (-> & -> & -> & -> & _).
  unfold credentials; simpl. rewrite lookup_insert_eq.
  repeat split; try done; simpl; congruence.
Qed.

(** C8. In the write path of [setCredentials] with a hash, a serializer
    that reports failure does not stop the write: the failure is logged
    and the write job is started all the same, carrying the bytes the
    serializer handed back. *)
Theorem setCredentials_serializer_failure
    (csKey : CredentialsStorageKey) (h : gmap string QVariant)
    (tryToWriteAsString : bool) (data : QByteArray)
    (st : CredentialsManager) :
  h ≠ ∅ →
  credentials st csKey ≠ QVHash h →
  serialize h = (data, false) →
  ∃ st' wj,
    setCredentials csKey (QVHash h) tryToWriteAsString st = Some st'
    ∧ logged st' = logged st ++ [DbgCannotSerialize (key csKey)]
    ∧ started st' = started st ++ [(next_job st, wj)]
    ∧ job_class wj = WritePasswordJob
    ∧ job_service wj = service csKey
    ∧ job_key wj = key csKey
    ∧ job_textData wj = fromAscii data
    ∧ m_credentials st' = <[csKey := QVHash h]> (m_credentials st).
Proof.
  intros Hh Hc Hser. apply not_eq_sym, QV_eqb_neq in Hc.
  unfold setCredentials.
  replace (isEmptyValue (QVHash h)) with false; last first.
  { symmetry. apply not_true_is_false. rewrite isEmptyValue_spec.
    intros [|[|]]; congruence. }
  rewrite Hc. simpl. rewrite andb_false_r, Hser.
  eexists _, _. split; [reflexivity|].
  rewrite dispatch_spec; simpl.
  destruct (platformFallback_fields
              (setAutoDelete false
                 (setTextData (fromAscii data)
                    (setKey (key csKey)
                       (newJob WritePasswordJob (service csKey))))))
    as (-> & -> & -> & -> & _).
  by repeat split.
Qed.

(** ** keychainJobFinished *)

Lemma recordResult_fields (r : JobResult) (job : Job) :
  job_class (recordResult r job) = job_class job
  ∧ job_service (recordResult r job) = job_service job
  ∧ job_key (recordResult r job) = job_key job
  ∧ job_error (recordResult r job) = res_error r
  ∧ job_errorString (recordResult r job) = res_errorString r
  ∧ (job_class job = ReadPasswordJob →
     job_textData (recordResult r job) = res_textData r).
Proof. unfold recordResult. destruct job as [[] ???????]; by simpl. Qed.

Lemma finished_dangling (j : JobPtr) (r : JobResult) (st : CredentialsManager) :
  jobs st !! j = None → finished j r st = st.
Proof.
  intros Hj. unfold finished, keychainJobFinished. fields.
  rewrite lookup_alter_eq, Hj. cbn [fmap option_fmap option_map].
  destruct st; unfold with_jobs; fields. f_equal.
  apply map_eq. intros i. rewrite lookup_alter.
  case_decide; [subst; by rewrite Hj|done].
Qed.

Lemma delete_alter (f : Job → Job) (j : JobPtr) (m : gmap nat Job) :
  delete j (alter f j m) = delete j m.
Proof.
  apply map_eq. intros i. rewrite !lookup_delete, lookup_alter.
  repeat case_decide; congruence.
Qed.

(** The end of the read branch: the job leaves its service's list, and
    the signal goes out if that empties the list. *)
Lemma drain_spec (s : QString) (j : JobPtr) (st : CredentialsManager) :
  let st1 := readJobs_ref s
               (with_readJobs
                  (λ m, <[s := removeOne j (default [] (m !! s))]> m) st) in
  (if bool_decide (readJobs st1 s = [])
   then emit (serviceReady s) st1 else st1) =
  mkManager (m_services st) (m_credentials st)
    (<[s := removeOne j (readJobs st s)]> (m_readJobs st))
    (jobs st) (next_job st) (started st)
    (emitted st ++ (if bool_decide (removeOne j (readJobs st s) = [])
                    then [serviceReady s] else []))
    (logged st).
Proof.
  intros st1. subst st1. unfold readJobs, readJobs_ref, with_readJobs, emit.
  destruct st as [sv cr rj jb nx sd em lg]. fields.
  rewrite !lookup_insert_eq. cbn [default from_option id].
  rewrite insert_insert_eq.
  case_bool_decide; by rewrite ?app_nil_r.
Qed.

Lemma finished_read (j : JobPtr) (r : JobResult) (st : CredentialsManager)
    (job : Job) :
  jobs st !! j = Some job →
  job_class job = ReadPasswordJob →
  let st' := finished j r st in
  let rest := removeOne j (readJobs st (job_service job)) in
  m_services st' = m_services st
  ∧ m_credentials st' =
      (if bool_decide (res_error r = NoError)
       then <[mkStorageKey (job_service job) (job_key job)
              := decodeCredentials (res_textData r)]> (m_credentials st)
       else m_credentials st)
  ∧ m_readJobs st' = <[job_service job := rest]> (m_readJobs st)
  ∧ jobs st' = delete j (jobs st)
  ∧ next_job st' = next_job st
  ∧ started st' = started st
  ∧ emitted st' =
      emitted st ++ (if bool_decide (rest = [])
                     then [serviceReady (job_service job)] else [])
  ∧ logged st' =
      logged st ++
      [DbgFuncInfo "keychainJobFinished";
       if bool_decide (res_error r = NoError)
       then DbgReadFinishedWithoutErrors (job_service job) (job_key job)
       else DbgReadFinishedWithError (job_service job) (job_key job)
              (res_error r) (res_errorString r)].
Proof.
  intros Hj Hc st' rest. subst st' rest.
  destruct (recordResult_fields r job) as (Ec & Es & Ek & Ee & Em & Et).
  specialize (Et Hc).
  unfold finished, keychainJobFinished. fields.
  rewrite lookup_alter_eq, Hj. cbn [fmap option_fmap option_map].
  rewrite Ec, Hc, Es, Ek, Ee, Em, Et, drain_spec.
  unfold readJobs.
  destruct (bool_decide (res_error r = NoError)); fields;
    rewrite delete_alter, <-?app_assoc; by repeat split.
Qed.

Lemma finished_write_delete (j : JobPtr) (r : JobResult)
    (st : CredentialsManager) (job : Job) :
  jobs st !! j = Some job →
  job_class job ≠ ReadPasswordJob →
  let st' := finished j r st in
  m_services st' = m_services st
  ∧ m_credentials st' = m_credentials st
  ∧ m_readJobs st' = m_readJobs st
  ∧ jobs st' = delete j (jobs st)
  ∧ next_job st' = next_job st
  ∧ started st' = started st
  ∧ emitted st' = emitted st.
Proof.
  intros Hj Hc st'. subst st'.
  destruct (recordResult_fields r job) as (Ec & _).
  unfold finished, keychainJobFinished. fields.
  rewrite lookup_alter_eq, Hj. cbn [fmap option_fmap option_map].
  rewrite Ec.
  destruct (job_class job); [done| |]; fields; rewrite delete_alter;
    by repeat split.
Qed.

(** C3. When a read job finishes without error, the value cached for its
    service and key is settled by parsing the payload: if the parser
    reports success and the parsed map is not empty, a hash equal to
    that map is stored; if the parser fails or the map is empty, the
    payload text itself is stored as a string. *)
Theorem read_success_decodes
    (j : JobPtr) (job : Job) (r : JobResult) (st : CredentialsManager) :
  jobs st !! j = Some job →
  job_class job = ReadPasswordJob →
  res_error r = NoError →
  let csKey := mkStorageKey (job_service job) (job_key job) in
  let creds := (parse (toLatin1 (res_textData r))).1 in
  let ok := (parse (toLatin1 (res_textData r))).2 in
  let st' := finished j r st in
  (ok = true ∧ QV.toMap creds ≠ ∅ →
     m_credentials st' !! csKey = Some (QVHash (QV.toMap creds)))
  ∧ (ok = false ∨ QV.toMap creds = ∅ →
     m_credentials st' !! csKey = Some (QVString (res_textData r)))
  ∧ (∀ other, other ≠ csKey →
       m_credentials st' !! other = m_credentials st !! other).
Proof.
  intros Hj Hc He. simpl.
  destruct (finished_read j r st job Hj Hc) as (_ & -> & _).
  rewrite He, bool_decide_eq_true_2 by done.
  unfold decodeCredentials.
  destruct (parse (toLatin1 (res_textData r))) as [creds ok]; simpl.
  rewrite hashOfMap_id. unfold isEmpty_hash.
  split; [|split].
  - intros [-> Hm]. rewrite lookup_insert_eq. simpl.
    by rewrite bool_decide_eq_false_2.
  - intros [-> | Hm]; rewrite lookup_insert_eq; simpl; [done|].
    rewrite bool_decide_eq_true_2 by done. by rewrite orb_true_r.
  - intros other Hne. by rewrite lookup_insert_ne.
Qed.

(** ** keys *)

Lemma keys_filter (st : CredentialsManager) (svc : QString) :
  keys st svc =
  key <$> filter (λ k, service k = svc) (map_to_list (m_credentials st)).*1.
Proof.
  unfold keys.
  generalize ((map_to_list (m_credentials st)).*1). intros l.
  assert (H : ∀ acc : list string,
             foldl (λ keys k, if bool_decide (service k = svc)
                              then keys ++ [key k] else keys) acc l
             = acc ++ (key <$> filter (λ k, service k = svc) l)).
  { induction l as [|k l IH]; intros acc.
    - cbn [foldl]. by rewrite filter_nil, fmap_nil, app_nil_r.
    - cbn [foldl]. rewrite IH, filter_cons.
      case_bool_decide.
      + rewrite decide_True by done. by rewrite fmap_cons, <-app_assoc.
      + by rewrite decide_False by done. }
  by rewrite H.
Qed.

(** C9. In every state, [keys( service )] lists exactly the key parts of
    the cache entries whose storage key has that service, each once.  It
    is computed from the cache alone, whatever the registry holds; a key
    cached under another service only is not listed. *)
Theorem keys_of_service (st : CredentialsManager) (svc : QString) :
  (∀ k, k ∈ keys st svc ↔
        ∃ csKey, is_Some (m_credentials st !! csKey)
                 ∧ service csKey = svc ∧ key csKey = k)
  ∧ (∀ k, k ∈ keys st svc ↔ is_Some (m_credentials st !! mkStorageKey svc k))
  ∧ NoDup (keys st svc)
  ∧ (∀ registry, keys (with_services registry st) svc = keys st svc).
Proof.
  assert (Hex : ∀ k, k ∈ keys st svc ↔
        ∃ csKey, is_Some (m_credentials st !! csKey)
                 ∧ service csKey = svc ∧ key csKey = k).
  { intros k. rewrite keys_filter, list_elem_of_fmap. split.
    - intros (csKey & -> & Hin). apply list_elem_of_filter in Hin as [Hs Hin].
      exists csKey. split; [|done].
      apply list_elem_of_fmap in Hin as ([k' v] & -> & Hin).
      apply elem_of_map_to_list in Hin. by exists v.
    - intros (csKey & [v Hv] & Hs & Hk). exists csKey. split; [done|].
      apply list_elem_of_filter. split; [done|].
      apply list_elem_of_fmap. exists (csKey, v). split; [done|].
      by apply elem_of_map_to_list. }
  split; [done|]. split; [|split].
  - intros k. rewrite Hex. split.
    + intros ([s k'] & Hsome & Hs & Hk). simpl in *. by subst.
    + intros Hsome. by exists (mkStorageKey svc k).
  - rewrite keys_filter. apply NoDup_fmap_2_strong.
    + intros [s1 k1] [s2 k2] H1 H2 Hk.
      apply list_elem_of_filter in H1 as [H1 _].
      apply list_elem_of_filter in H2 as [H2 _]. simpl in *. congruence.
    + apply NoDup_filter, NoDup_fst_map_to_list.
  - intros registry. done.
Qed.

(** ** Lists of read jobs *)

Lemma filter_all (P : JobPtr → Prop) `{!∀ x, Decision (P x)} (l : list JobPtr) :
  (∀ x, x ∈ l → P x) → filter P l = l.
Proof.
  induction l as [|y l IH]; intros Hall; [done|].
  rewrite filter_cons_True by (apply Hall; left).
  f_equal. apply IH. intros x Hx. apply Hall. by right.
Qed.

Lemma removeOne_filter (x : JobPtr) (l : list JobPtr) :
  NoDup l → removeOne x l = filter (λ y, y ≠ x) l.
Proof.
  induction 1 as [|y l Hy Hl IH]; simpl; [done|].
  destruct (decide (x = y)) as [->|Hne].
  - rewrite filter_cons_False by (intros ?; done).
    symmetry. apply filter_all. intros z Hz ->. done.
  - rewrite filter_cons_True by done. by rewrite IH.
Qed.

Lemma readJobs_lookup (st st' : CredentialsManager) (s s' : QString)
    (l : list JobPtr) :
  m_readJobs st' = <[s := l]> (m_readJobs st) →
  readJobs st' s' = if decide (s = s') then l else readJobs st s'.
Proof.
  intros E. unfold readJobs. rewrite E, lookup_insert. by case_decide.
Qed.

(** ** loadCredentials and addService *)

Lemma launchReadJob_spec (service key : QString) (st : CredentialsManager) :
  launchReadJob service st key =
  mkManager (m_services st) (m_credentials st)
    (<[service := readJobs st service ++ [next_job st]]> (m_readJobs st))
    (<[next_job st := readJobFor service key]> (jobs st))
    (S (next_job st))
    (started st ++ [(next_job st, readJobFor service key)])
    (emitted st) (logged st ++ [DbgLaunchingReadJob key]).
Proof.
  unfold launchReadJob, allocate, start, with_readJobs, tLog; simpl.
  by rewrite lookup_insert_eq.
Qed.

Lemma launch_all (service : QString) (accountIds : QStringList)
    (st : CredentialsManager) :
  let st' := foldl (launchReadJob service) st accountIds in
  m_services st' = m_services st
  ∧ m_credentials st' = m_credentials st
  ∧ emitted st' = emitted st
  ∧ next_job st' = next_job st + length accountIds
  ∧ readJobs st' service =
      readJobs st service ++ seq (next_job st) (length accountIds)
  ∧ (∀ s, s ≠ service → m_readJobs st' !! s = m_readJobs st !! s)
  ∧ (∀ j, j < next_job st → jobs st' !! j = jobs st !! j)
  ∧ (∀ j, (next_job st + length accountIds ≤ j)%nat →
       jobs st' !! j = jobs st !! j)
  ∧ (∀ i key, accountIds !! i = Some key →
       jobs st' !! (next_job st + i) = Some (readJobFor service key))
  ∧ started st' =
      started st ++ imap (λ i key, (next_job st + i, readJobFor service key))
                         accountIds.
Proof.
  revert st. induction accountIds as [|key ids IH]; intros st st'; subst st'.
  - cbn [foldl length seq imap]. rewrite !app_nil_r, Nat.add_0_r.
    repeat split; done.
  - cbn [foldl length]. rewrite launchReadJob_spec.
    match goal with |- context [foldl _ ?s ids] => set (st1 := s) end.
    destruct (IH st1) as (E1 & E2 & E3 & E4 & E5 & Hs & Hlo & Hhi & Hnew & E6).
    rewrite E1, E2, E3, E4, E5, E6. clear E1 E2 E3 E4 E5 E6 IH.
    unfold readJobs in *. subst st1. fields.
    rewrite lookup_insert_eq. cbn [default from_option id seq].
    repeat split; try done.
    + lia.
    + by rewrite <-app_assoc.
    + intros s Hne. rewrite Hs by done. by rewrite lookup_insert_ne.
    + intros j Hj. rewrite Hlo by lia. rewrite lookup_insert_ne by lia. done.
    + intros j Hj. rewrite Hhi by lia. rewrite lookup_insert_ne by lia. done.
    + intros [|i] k Hi.
      * cbn in Hi. simplify_eq. rewrite Nat.add_0_r, Hlo by lia.
        by rewrite lookup_insert_eq.
      * replace (next_job st + S i) with (S (next_job st) + i) by lia.
        by apply Hnew.
    + rewrite <-app_assoc. cbn [imap app]. rewrite Nat.add_0_r. do 2 f_equal.
      apply imap_ext. intros i k _. cbn. f_equal. lia.
Qed.

Lemma addService_spec (service : QString) (accountIds : QStringList)
    (st : CredentialsManager) :
  let st' := addService service accountIds st in
  m_services st' = <[service := accountIds]> (m_services st)
  ∧ m_credentials st' = m_credentials st
  ∧ next_job st' = next_job st + length accountIds
  ∧ readJobs st' service = readJobs st service ++ cycleJobs st accountIds
  ∧ (∀ s, s ≠ service → readJobs st' s = readJobs st s)
  ∧ (∀ j, j < next_job st → jobs st' !! j = jobs st !! j)
  ∧ (∀ j, (next_job st + length accountIds ≤ j)%nat →
       jobs st' !! j = jobs st !! j)
  ∧ (∀ i key, accountIds !! i = Some key →
       jobs st' !! (next_job st + i) = Some (readJobFor service key))
  ∧ started st' =
      started st ++ imap (λ i key, (next_job st + i, readJobFor service key))
                         accountIds
  ∧ emitted st' =
      emitted st ++
      (if bool_decide (readJobs st service ++ cycleJobs st accountIds = [])
       then [serviceReady service] else []).
Proof.
  intros st'. subst st'. unfold addService, loadCredentials, cycleJobs.
  remember (with_services (<[service:=accountIds]>)
              (if bool_decide (is_Some (m_services st !! service))
               then with_services (delete service) st else st))
    as st0 eqn:Hst0.
  assert (E0 : m_services st0 = <[service := accountIds]> (m_services st)
               ∧ m_credentials st0 = m_credentials st
               ∧ m_readJobs st0 = m_readJobs st
               ∧ jobs st0 = jobs st ∧ next_job st0 = next_job st
               ∧ started st0 = started st ∧ emitted st0 = emitted st).
  { subst st0. case_bool_decide; fields; repeat split; try done.
    apply insert_delete_eq. }
  clear Hst0. destruct E0 as (Esv & Ecr & Erj & Ejb & Enx & Est & Eem).
  rewrite Esv, lookup_insert_eq. cbn [default from_option id].
  pose proof (launch_all service accountIds
                (tLog (DbgKeysForService service accountIds) st0)) as H.
  cbv zeta in H.
  remember (foldl (launchReadJob service)
              (tLog (DbgKeysForService service accountIds) st0) accountIds)
    as st1 eqn:Hst1.
  clear Hst1. unfold readJobs in *. fields.
  destruct H as (Hsv & Hcr & Hem & Hnx & Hrj & Hs & Hlo & Hhi & Hnew & Hst).
  rewrite Esv in Hsv. rewrite Ecr in Hcr. rewrite Eem in Hem.
  rewrite Enx in Hnx, Hrj, Hlo, Hhi, Hnew, Hst.
  rewrite Erj in Hrj, Hs. rewrite Ejb in Hlo, Hhi. rewrite Est in Hst.
  rewrite lookup_insert_eq. cbn [default from_option id]. rewrite Hrj.
  case_bool_decide; fields; rewrite ?lookup_insert_eq, ?app_nil_r;
    cbn [default from_option id]; repeat split; try done; try congruence;
    intros s Hne; rewrite lookup_insert_ne by done; by rewrite Hs.
Qed.

(** ** The bookkeeping of jobs stays coherent *)

Lemma jobsConsistent_init : jobsConsistent init.
Proof.
  split; unfold init, readJobs; fields.
  - intros j job. by rewrite lookup_empty.
  - intros j job. by rewrite lookup_empty.
  - intros service j. rewrite lookup_empty. cbn. by intros ?%elem_of_nil.
  - intros service. rewrite lookup_empty. cbn. constructor.
Qed.

Lemma readJobFor_fields (service key : QString) :
  job_class (readJobFor service key) = ReadPasswordJob
  ∧ job_service (readJobFor service key) = service
  ∧ job_key (readJobFor service key) = key.
Proof.
  unfold readJobFor.
  destruct (platformFallback_fields
              (setAutoDelete false (setKey key (newJob ReadPasswordJob service))))
    as (-> & -> & -> & _).
  done.
Qed.

Lemma jobsConsistent_addService (service : QString) (accountIds : QStringList)
    (st : CredentialsManager) :
  jobsConsistent st → jobsConsistent (addService service accountIds st).
Proof.
  intros [Hb Hl Ha Hn].
  destruct (addService_spec service accountIds st)
    as (_ & _ & Enx & Erj & Eother & Hlo & Hhi & Hnew & _).
  assert (Hjobs : ∀ j job,
             jobs (addService service accountIds st) !! j = Some job →
             (j < next_job st ∧ jobs st !! j = Some job)
             ∨ (∃ i key, accountIds !! i = Some key ∧ j = next_job st + i
                         ∧ job = readJobFor service key)).
  { intros j job Hj. destruct (decide (j < next_job st)) as [Hlt|Hge].
    - left. split; [done|]. by rewrite <-Hlo.
    - destruct (decide (j < next_job st + length accountIds)) as [Hlt|Hge'].
      + right. destruct (lookup_lt_is_Some_2 accountIds (j - next_job st))
          as [key Hkey]; [lia|].
        exists (j - next_job st), key. split; [done|]. split; [lia|].
        specialize (Hnew _ _ Hkey).
        replace (next_job st + (j - next_job st)) with j in Hnew by lia.
        congruence.
      + rewrite Hhi in Hj by lia. apply Hb in Hj. lia. }
  split.
  - intros j job Hj. rewrite Enx.
    destruct (Hjobs j job Hj) as [[Hlt _]|(i & key & Hi & -> & _)]; [lia|].
    apply lookup_lt_Some in Hi. lia.
  - intros j job Hj Hc.
    destruct (Hjobs j job Hj) as [[Hlt Hold]|(i & key & Hi & -> & ->)].
    + specialize (Hl j job Hold Hc).
      destruct (decide (job_service job = service)) as [<-|Hne].
      * rewrite Erj. apply elem_of_app. by left.
      * by rewrite Eother.
    + destruct (readJobFor_fields service key) as (_ & -> & _).
      rewrite Erj. apply elem_of_app. right. unfold cycleJobs.
      apply elem_of_seq. apply lookup_lt_Some in Hi. lia.
  - intros s j Hj. destruct (decide (s = service)) as [->|Hne].
    + rewrite Erj in Hj. apply elem_of_app in Hj as [Hj|Hj].
      * destruct (Ha _ _ Hj) as (job & Hjob & Hc & Hs).
        exists job. rewrite Hlo by (by eapply Hb). done.
      * unfold cycleJobs in Hj. apply elem_of_seq in Hj.
        destruct (lookup_lt_is_Some_2 accountIds (j - next_job st))
          as [key Hkey]; [lia|].
        exists (readJobFor service key).
        specialize (Hnew _ _ Hkey).
        replace (next_job st + (j - next_job st)) with j in Hnew by lia.
        destruct (readJobFor_fields service key) as (? & ? & _). done.
    + rewrite Eother in Hj by done.
      destruct (Ha _ _ Hj) as (job & Hjob & Hc & Hs).
      exists job. rewrite Hlo by (by eapply Hb). done.
  - intros s. destruct (decide (s = service)) as [->|Hne].
    + rewrite Erj. apply NoDup_app. split; [apply Hn|]. split.
      * intros j Hj Hj'. unfold cycleJobs in Hj'. apply elem_of_seq in Hj'.
        destruct (Ha _ _ Hj) as (job & Hjob & _). apply Hb in Hjob. lia.
      * apply NoDup_seq.
    + rewrite Eother by done. apply Hn.
Qed.

Lemma setCredentials_jobs
    (csKey : CredentialsStorageKey) (value : QVariant)
    (b : bool) (st st' : CredentialsManager) :
  setCredentials csKey value b st = Some st' →
  m_readJobs st' = m_readJobs st
  ∧ emitted st' = emitted st
  ∧ m_services st' = m_services st
  ∧ ((jobs st' = jobs st ∧ next_job st' = next_job st)
     ∨ (∃ job, job_class job ≠ ReadPasswordJob
               ∧ jobs st' = <[next_job st := job]> (jobs st)
               ∧ next_job st' = S (next_job st))).
Proof.
  unfold setCredentials.
  repeat (case_match; simplify_eq/=); intros [= <-];
    rewrite ?dispatch_spec; fields; repeat split; auto; right;
    eexists; (split; [|split; reflexivity]);
    match goal with
    | |- job_class (platformFallback ?j) ≠ _ =>
        destruct (platformFallback_fields j) as (-> & _); done
    end.
Qed.

Lemma jobsConsistent_setCredentials
    (csKey : CredentialsStorageKey) (value : QVariant)
    (b : bool) (st st' : CredentialsManager) :
  jobsConsistent st →
  setCredentials csKey value b st = Some st' →
  jobsConsistent st'.
Proof.
  intros [Hb Hl Ha Hn] Hset.
  destruct (setCredentials_jobs _ _ _ _ _ Hset)
    as (Erj & _ & _ & [[Ej Enx]|(job & Hc & Ej & Enx)]).
  - split; unfold readJobs in *; rewrite ?Erj, ?Ej, ?Enx; done.
  - split; unfold readJobs in *; rewrite ?Erj, ?Ej, ?Enx.
    + intros j job' Hj. apply lookup_insert_Some in Hj as [[<- _]|[_ Hj]];
        [lia|]. apply Hb in Hj. lia.
    + intros j job' Hj Hc'.
      apply lookup_insert_Some in Hj as [[_ <-]|[_ Hj]]; [done|].
      by apply Hl.
    + intros s j Hj. destruct (Ha s j Hj) as (job' & Hjob & ? & ?).
      exists job'. rewrite lookup_insert_ne; [done|].
      apply Hb in Hjob. lia.
    + done.
Qed.

Lemma jobsConsistent_finished (j : JobPtr) (r : JobResult)
    (st : CredentialsManager) :
  jobsConsistent st → jobsConsistent (finished j r st).
Proof.
  intros Hst. destruct (jobs st !! j) as [job|] eqn:Hj;
    [|by rewrite finished_dangling].
  destruct Hst as [Hb Hl Ha Hn].
  destruct (decide (job_class job = ReadPasswordJob)) as [Hc|Hc].
  - destruct (finished_read j r st job Hj Hc)
      as (_ & _ & Erj & Ej & Enx & _).
    pose proof (λ s', readJobs_lookup st (finished j r st) _ s' _ Erj) as Hrd.
    cbv beta in Hrd.
    rewrite (removeOne_filter _ _ (Hn _)) in Hrd.
    split; rewrite ?Ej, ?Enx.
    + intros j' job' Hj'. apply lookup_delete_Some in Hj' as [_ Hj'].
      by eapply Hb.
    + intros j' job' Hj' Hc'. apply lookup_delete_Some in Hj' as [Hne Hj'].
      rewrite (Hrd (job_service job')). case_decide as Hs.
      * apply list_elem_of_filter. split; [done|].
        rewrite Hs. by apply Hl.
      * by apply Hl.
    + intros s j' Hj'. rewrite (Hrd s) in Hj'. case_decide as Hs.
      * apply list_elem_of_filter in Hj' as [Hne Hj']. subst s.
        destruct (Ha _ _ Hj') as (job' & ? & ? & ?). exists job'.
        by rewrite lookup_delete_ne.
      * destruct (Ha _ _ Hj') as (job' & Hjob' & ? & ?). exists job'.
        rewrite lookup_delete_ne; [done|]. intros <-. congruence.
    + intros s. rewrite (Hrd s). case_decide; [|apply Hn].
      apply NoDup_filter, Hn.
  - destruct (finished_write_delete j r st job Hj Hc)
      as (_ & _ & Erj & Ej & Enx & _).
    split; unfold readJobs in *; rewrite ?Erj, ?Ej, ?Enx.
    + intros j' job' Hj'. apply lookup_delete_Some in Hj' as [_ Hj'].
      by eapply Hb.
    + intros j' job' Hj' Hc'. apply lookup_delete_Some in Hj' as [_ Hj'].
      by apply Hl.
    + intros s j' Hj'. destruct (Ha _ _ Hj') as (job' & Hjob' & ? & ?).
      exists job'. rewrite lookup_delete_ne; [done|]. intros <-. congruence.
    + done.
Qed.

Lemma jobsConsistent_step (c : Call) (st st' : CredentialsManager) :
  jobsConsistent st → step c st = Some st' → jobsConsistent st'.
Proof.
  intros Hst. destruct c as [service ids|csKey value b|j r]; cbn [step].
  - intros [= <-]. by apply jobsConsistent_addService.
  - by apply jobsConsistent_setCredentials.
  - intros [= <-]. by apply jobsConsistent_finished.
Qed.

Lemma jobsConsistent_run (cs : list Call) (st st' : CredentialsManager) :
  jobsConsistent st → run cs st = Some st' → jobsConsistent st'.
Proof.
  revert st. induction cs as [|c cs IH]; intros st Hst; cbn [run].
  - by intros [= <-].
  - destruct (step c st) as [st1|] eqn:Hstep; [|done].
    apply IH. by eapply jobsConsistent_step.
Qed.

(** ** One service's read jobs along a run *)

Lemma countReady_app (service : QString) (a b : list Signal) :
  countReady service (a ++ b) = countReady service a + countReady service b.
Proof. unfold countReady. by rewrite filter_app, length_app. Qed.

Lemma countReady_one (service s : QString) :
  countReady service [serviceReady s] = if decide (s = service) then 1 else 0.
Proof.
  unfold countReady. rewrite filter_cons, filter_nil.
  destruct (decide (s = service)) as [->|Hne].
  - by rewrite decide_True.
  - rewrite decide_False; [done|]. by intros [= ?].
Qed.

Lemma filter_finished_nil (l : list JobPtr) :
  filter (λ j, j ∉ finishedJobs []) l = l.
Proof. apply filter_all. intros x _. cbn. apply not_elem_of_nil. Qed.

Lemma filter_finished_absent (j : JobPtr) (r : JobResult) (l : list JobPtr) :
  j ∉ l → filter (λ x, x ∉ finishedJobs [JobFinished j r]) l = l.
Proof.
  intros Hj. apply filter_all. intros x Hx. cbn.
  intros ->%list_elem_of_singleton. done.
Qed.

Lemma filter_finished_one (j : JobPtr) (r : JobResult) (l : list JobPtr) :
  filter (λ x, x ∉ finishedJobs [JobFinished j r]) l = filter (λ x, x ≠ j) l.
Proof.
  apply list_filter_iff. intros x. cbn. by rewrite list_elem_of_singleton.
Qed.

Lemma ready_count_same (l : list JobPtr) :
  0 = if bool_decide (l ≠ [] ∧ l = []) then 1 else 0.
Proof. rewrite bool_decide_eq_false_2; [done|]. by intros [? ?]. Qed.

(** What one call does to the read jobs of [service] and to the count of
    its ready signals, as long as the call does not register [service]
    anew. *)
Lemma step_view (service : QString) (c : Call) (st st' : CredentialsManager) :
  jobsConsistent st →
  notRegistering service c →
  step c st = Some st' →
  ∃ sigs,
    emitted st' = emitted st ++ sigs
    ∧ readJobs st' service =
        filter (λ j, j ∉ finishedJobs [c]) (readJobs st service)
    ∧ countReady service sigs =
        if bool_decide (readJobs st service ≠ [] ∧ readJobs st' service = [])
        then 1 else 0.
Proof.
  intros Hst Hc Hstep.
  destruct c as [s ids|csKey value b|j r]; cbn [step notRegistering] in *.
  - injection Hstep as <-.
    destruct (addService_spec s ids st)
      as (_ & _ & _ & _ & Eother & _ & _ & _ & _ & Eem).
    eexists. split; [exact Eem|].
    rewrite (Eother service) by done.
    split; [by rewrite filter_finished_nil|].
    rewrite <-ready_count_same. case_bool_decide; [|done].
    rewrite countReady_one. by rewrite decide_False.
  - destruct (setCredentials_jobs _ _ _ _ _ Hstep) as (Erj & Eem & _).
    exists []. rewrite app_nil_r. split; [done|].
    unfold readJobs. rewrite Erj. fold (readJobs st service).
    split; [by rewrite filter_finished_nil|].
    by rewrite <-ready_count_same.
  - injection Hstep as <-.
    destruct Hst as [Hb Hl Ha Hn].
    destruct (jobs st !! j) as [job|] eqn:Hj.
    + destruct (decide (job_class job = ReadPasswordJob)) as [Hcl|Hcl].
      * destruct (finished_read j r st job Hj Hcl)
          as (_ & _ & Erj & _ & _ & _ & Eem & _).
        eexists. split; [exact Eem|].
        rewrite (readJobs_lookup st (finished j r st) _ service _ Erj).
        case_decide as Hs.
        -- rewrite Hs in *.
           rewrite filter_finished_one, <-(removeOne_filter _ _ (Hn service)).
           split; [done|].
           assert (readJobs st service ≠ []) as Hne.
           { specialize (Hl j job Hj Hcl). rewrite Hs in Hl.
             intros E. rewrite E in Hl. by apply elem_of_nil in Hl. }
           case_bool_decide as Hrest.
           ++ rewrite countReady_one, decide_True by done.
              by rewrite bool_decide_eq_true_2.
           ++ rewrite bool_decide_eq_false_2; [done|]. by intros [_ ?].
        -- assert (j ∉ readJobs st service) as Hnot.
           { intros Hin. destruct (Ha _ _ Hin) as (job' & ? & _ & ?).
             congruence. }
           split; [by rewrite filter_finished_absent|].
           rewrite <-ready_count_same. case_bool_decide; [|done].
           rewrite countReady_one. by rewrite decide_False.
      * destruct (finished_write_delete j r st job Hj Hcl)
          as (_ & _ & Erj & _ & _ & _ & Eem).
        exists []. rewrite app_nil_r. split; [done|].
        unfold readJobs. rewrite Erj. fold (readJobs st service).
        assert (j ∉ readJobs st service) as Hnot.
        { intros Hin. destruct (Ha _ _ Hin) as (job' & ? & ? & _).
          congruence. }
        split; [by rewrite filter_finished_absent|].
        by rewrite <-ready_count_same.
    + rewrite finished_dangling by done.
      exists []. rewrite app_nil_r. split; [done|].
      assert (j ∉ readJobs st service) as Hnot.
      { intros Hin. destruct (Ha _ _ Hin) as (job' & ? & _). congruence. }
      split; [by rewrite filter_finished_absent|].
      by rewrite <-ready_count_same.
Qed.

Lemma finishedJobs_cons (c : Call) (cs : list Call) :
  finishedJobs (c :: cs) = finishedJobs [c] ++ finishedJobs cs.
Proof. by destruct c. Qed.

Lemma run_view (service : QString) (cs : list Call)
    (st st' : CredentialsManager) :
  jobsConsistent st →
  Forall (notRegistering service) cs →
  run cs st = Some st' →
  ∃ sigs,
    emitted st' = emitted st ++ sigs
    ∧ readJobs st' service =
        filter (λ j, j ∉ finishedJobs cs) (readJobs st service)
    ∧ countReady service sigs =
        if bool_decide (readJobs st service ≠ [] ∧ readJobs st' service = [])
        then 1 else 0.
Proof.
  revert st. induction cs as [|c cs IH]; intros st Hst Hcs; cbn [run].
  - intros [= <-]. exists []. rewrite app_nil_r, filter_finished_nil.
    split; [done|]. split; [done|]. apply ready_count_same.
  - destruct (step c st) as [st1|] eqn:Hstep; [|done]. intros Hrun.
    apply Forall_cons in Hcs as [Hc Hcs].
    destruct (step_view service c st st1 Hst Hc Hstep) as (s1 & E1 & R1 & C1).
    destruct (IH st1 (jobsConsistent_step _ _ _ Hst Hstep) Hcs Hrun)
      as (s2 & E2 & R2 & C2).
    exists (s1 ++ s2). split; [by rewrite E2, E1, app_assoc|].
    assert (HR : readJobs st' service =
              filter (λ j, j ∉ finishedJobs (c :: cs)) (readJobs st service)).
    { rewrite R2, R1, list_filter_filter. apply list_filter_iff.
      intros x. rewrite (finishedJobs_cons c cs), elem_of_app. tauto. }
    split; [done|].
    rewrite countReady_app, C1, C2.
    assert (readJobs st1 service = [] → readJobs st' service = []) as H1.
    { intros E. by rewrite R2, E. }
    assert (readJobs st service = [] → readJobs st1 service = []) as H2.
    { intros E. by rewrite R1, E. }
    repeat case_bool_decide; cbn [Nat.add]; try done; exfalso; tauto.
Qed.

Lemma filter_unfinished_nil (fin l : list JobPtr) :
  filter (λ j, j ∉ fin) l = [] ↔ Forall (λ j, j ∈ fin) l.
Proof.
  induction l as [|x l IH]; [by rewrite filter_nil|].
  rewrite filter_cons, Forall_cons. destruct (decide (x ∈ fin)) as [Hx|Hx].
  - rewrite decide_False by (by intros ?). rewrite IH. tauto.
  - rewrite decide_True by done. split; [done|]. by intros [? _].
Qed.

(** The count of ready signals of a load cycle that starts with no read
    job of the service outstanding. *)
Lemma cycle_ready_count (st : CredentialsManager) (service : QString)
    (accountIds : QStringList) (cs : list Call) (st' : CredentialsManager) :
  jobsConsistent st →
  readJobs st service = [] →
  Forall (notRegistering service) cs →
  run cs (addService service accountIds st) = Some st' →
  ∃ sigs,
    emitted st' = emitted st ++ sigs
    ∧ countReady service sigs =
        if bool_decide (Forall (λ j, j ∈ finishedJobs cs)
                               (cycleJobs st accountIds))
        then 1 else 0.
Proof.
  intros Hst Hempty Hcs Hrun.
  destruct (addService_spec service accountIds st)
    as (_ & _ & _ & Erj & _ & _ & _ & _ & _ & Eem).
  rewrite Hempty, app_nil_l in Erj, Eem.
  destruct (run_view service cs _ st'
              (jobsConsistent_addService service accountIds st Hst) Hcs Hrun)
    as (sigs & E & R & C).
  eexists. split; [by rewrite E, Eem, <-app_assoc|].
  rewrite countReady_app, C, R, Erj.
  pose proof (filter_unfinished_nil (finishedJobs cs) (cycleJobs st accountIds))
    as Hnil.
  destruct (decide (cycleJobs st accountIds = [])) as [E0|E0].
  - rewrite E0 in *. rewrite bool_decide_eq_true_2 by done.
    rewrite countReady_one, decide_True by done.
    rewrite bool_decide_eq_false_2 by (by intros [? _]).
    by rewrite bool_decide_eq_true_2 by constructor.
  - rewrite (bool_decide_eq_false_2 (cycleJobs st accountIds = [])) by done.
    cbn [countReady filter list_filter length Nat.add].
    apply (f_equal (λ b : bool, if b then 1 else 0)).
    apply bool_decide_ext. rewrite Hnil. tauto.
Qed.

(** Every call only adds to the signals emitted. *)
Lemma step_emits (c : Call) (st st' : CredentialsManager) :
  step c st = Some st' → ∃ sigs, emitted st' = emitted st ++ sigs.
Proof.
  destruct c as [s ids|csKey value b|j r]; cbn [step].
  - intros [= <-].
    destruct (addService_spec s ids st) as (_ & _ & _ & _ & _ & _ & _ & _ & _ & E).
    eexists. exact E.
  - intros Hset. destruct (setCredentials_jobs _ _ _ _ _ Hset) as (_ & E & _).
    exists []. by rewrite app_nil_r.
  - intros [= <-]. destruct (jobs st !! j) as [job|] eqn:Hj.
    + destruct (decide (job_class job = ReadPasswordJob)) as [Hc|Hc].
      * destruct (finished_read j r st job Hj Hc)
          as (_ & _ & _ & _ & _ & _ & E & _).
        eexists. exact E.
      * destruct (finished_write_delete j r st job Hj Hc)
          as (_ & _ & _ & _ & _ & _ & E).
        exists []. by rewrite app_nil_r.
    + rewrite finished_dangling by done. exists []. by rewrite app_nil_r.
Qed.

Lemma run_emits (cs : list Call) (st st' : CredentialsManager) :
  run cs st = Some st' → ∃ sigs, emitted st' = emitted st ++ sigs.
Proof.
  revert st. induction cs as [|c cs IH]; intros st; cbn [run].
  - intros [= <-]. exists []. by rewrite app_nil_r.
  - destruct (step c st) as [st1|] eqn:Hstep; [|done]. intros Hrun.
    destruct (step_emits c st st1 Hstep) as (s1 & E1).
    destruct (IH st1 Hrun) as (s2 & E2).
    exists (s1 ++ s2). by rewrite E2, E1, app_assoc.
Qed.

(** While a read job listed for [service] has not finished, no call
    whatever, a new registration of the service included, emits
    [serviceReady( service )] or takes the job off the list. *)
Lemma step_pending (service : QString) (j0 : JobPtr) (c : Call)
    (st st' : CredentialsManager) :
  jobsConsistent st →
  j0 ∈ readJobs st service →
  j0 ∉ finishedJobs [c] →
  step c st = Some st' →
  ∃ sigs, emitted st' = emitted st ++ sigs
          ∧ countReady service sigs = 0
          ∧ j0 ∈ readJobs st' service.
Proof.
  intros Hst Hin Hfin Hstep.
  assert (Hother : notRegistering service c →
            ∃ sigs, emitted st' = emitted st ++ sigs
                    ∧ countReady service sigs = 0
                    ∧ j0 ∈ readJobs st' service).
  { intros Hnr.
    destruct (step_view service c st st' Hst Hnr Hstep) as (sigs & E & R & C).
    assert (Hin' : j0 ∈ readJobs st' service).
    { rewrite R. by apply list_elem_of_filter. }
    exists sigs. split; [done|]. split; [|done].
    rewrite C, bool_decide_eq_false_2; [done|].
    intros [_ E']. rewrite E' in Hin'. by apply elem_of_nil in Hin'. }
  destruct c as [s ids|csKey value b|j r]; [|by apply Hother..].
  destruct (decide (s = service)) as [->|Hne]; [|by apply Hother].
  cbn [step] in Hstep. injection Hstep as <-.
  destruct (addService_spec service ids st)
    as (_ & _ & _ & Erj & _ & _ & _ & _ & _ & Eem).
  assert (Hin' : j0 ∈ readJobs st service ++ cycleJobs st ids)
    by (apply elem_of_app; by left).
  exists []. rewrite app_nil_r, Erj. split; [|done].
  rewrite Eem, bool_decide_eq_false_2; [by rewrite app_nil_r|].
  intros E. rewrite E in Hin'. by apply elem_of_nil in Hin'.
Qed.

Lemma run_pending (service : QString) (j0 : JobPtr) (cs : list Call)
    (st st' : CredentialsManager) :
  jobsConsistent st →
  j0 ∈ readJobs st service →
  j0 ∉ finishedJobs cs →
  run cs st = Some st' →
  ∃ sigs, emitted st' = emitted st ++ sigs
          ∧ countReady service sigs = 0
          ∧ j0 ∈ readJobs st' service.
Proof.
  revert st. induction cs as [|c cs IH]; intros st Hst Hin Hfin; cbn [run].
  - intros [= <-]. exists []. by rewrite app_nil_r.
  - destruct (step c st) as [st1|] eqn:Hstep; [|done]. intros Hrun.
    rewrite finishedJobs_cons in Hfin. apply not_elem_of_app in Hfin as [F1 F2].
    destruct (step_pending service j0 c st st1 Hst Hin F1 Hstep)
      as (s1 & E1 & C1 & Hin1).
    destruct (IH st1 (jobsConsistent_step _ _ _ Hst Hstep) Hin1 F2 Hrun)
      as (s2 & E2 & C2 & Hin2).
    exists (s1 ++ s2). split; [by rewrite E2, E1, app_assoc|].
    split; [|done]. by rewrite countReady_app, C1, C2.
Qed.

(** C1. Let [addService( service, keys )] be called with N keys in a
    coherent state.  The call starts N read jobs, one per key in the order
    of the keys.  Counted from that call on, and whatever calls follow,
    [serviceReady( service )] has not been emitted as long as one of the N
    jobs has not finished.  If no read job of an earlier load cycle of the
    service was outstanding at the call, and the service is not registered
    again in the calls that follow, [serviceReady( service )] has been
    emitted once when all N jobs have finished, in whatever order and with
    whatever result. *)
Theorem load_cycle_ready_once (st : CredentialsManager) (service : QString)
    (accountIds : QStringList) (cs : list Call) (st' : CredentialsManager) :
  jobsConsistent st →
  run cs (addService service accountIds st) = Some st' →
  started (addService service accountIds st) =
    started st ++ imap (λ i key, (next_job st + i, readJobFor service key))
                       accountIds
  ∧ ∃ sigs,
      emitted st' = emitted st ++ sigs
      ∧ (∀ j, j ∈ cycleJobs st accountIds → j ∉ finishedJobs cs →
           countReady service sigs = 0)
      ∧ (readJobs st service = [] →
         Forall (notRegistering service) cs →
         countReady service sigs =
           if bool_decide (Forall (λ j, j ∈ finishedJobs cs)
                                  (cycleJobs st accountIds))
           then 1 else 0).
Proof.
  intros Hst Hrun.
  destruct (addService_spec service accountIds st)
    as (_ & _ & _ & Erj & _ & _ & _ & _ & Est & Eem).
  split; [exact Est|].
  destruct (run_emits cs _ st' Hrun) as (s2 & E2).
  eexists. split; [by rewrite E2, Eem, <-app_assoc|]. split.
  - intros j Hj Hfin.
    assert (Hin : j ∈ readJobs (addService service accountIds st) service).
    { rewrite Erj. apply elem_of_app. by right. }
    destruct (run_pending service j cs _ st'
                (jobsConsistent_addService service accountIds st Hst)
                Hin Hfin Hrun) as (s2' & E2' & C2' & _).
    rewrite E2 in E2'. apply app_inv_head in E2'. subst s2'.
    rewrite countReady_app, C2'.
    rewrite bool_decide_eq_false_2; [done|].
    intros E. apply app_eq_nil in E as [_ E]. rewrite E in Hj.
    by apply elem_of_nil in Hj.
  - intros Hempty Hcs.
    destruct (cycle_ready_count st service accountIds cs st' Hst Hempty Hcs Hrun)
      as (sigs & E & C).
    rewrite E2, Eem, <-app_assoc in E. apply app_inv_head in E.
    by rewrite E.
Qed.

(** C6. [addService] with an empty key list starts no read job and
    makes no job object, whatever is outstanding; when no read job of
    that service is outstanding it emits [serviceReady( service )] within
    the call. *)
Theorem addService_no_keys (service : QString) (st : CredentialsManager) :
  let st' := addService service [] st in
  (started st' = started st
   ∧ jobs st' = jobs st
   ∧ next_job st' = next_job st
   ∧ readJobs st' service = readJobs st service)
  ∧ (readJobs st service = [] →
     emitted st' = emitted st ++ [serviceReady service]).
Proof.
  intros st'. subst st'.
  destruct (addService_spec service [] st)
    as (_ & _ & Enx & Erj & _ & Hlo & Hhi & _ & Est & Eem).
  unfold cycleJobs in *. cbn [length seq imap] in *.
  rewrite app_nil_r in Erj, Est, Eem. rewrite Nat.add_0_r in Enx.
  split.
  - split_and!; try done.
    apply map_eq. intros j. destruct (decide (j < next_job st)) as [Hlt|Hge].
    + by apply Hlo.
    + apply Hhi. lia.
  - intros Hempty. rewrite Hempty in Eem.
    by rewrite bool_decide_eq_true_2 in Eem by done.
Qed.

(** C7. When a read job finishes with an error, the cache is
    left exactly as it was, so [credentials( service, key )] returns what
    it returned before: the invalid variant if the key had no entry.
    The failure is logged.  The job leaves the list of its service, the
    other lists stay as they are, and [serviceReady] is emitted at once
    if the list is now empty; otherwise, provided the service is not
    registered again in the meantime, it is emitted, once, by the time the
    jobs still listed have all finished. *)
Theorem read_failure (j : JobPtr) (job : Job) (r : JobResult)
    (st : CredentialsManager) :
  jobsConsistent st →
  jobs st !! j = Some job →
  job_class job = ReadPasswordJob →
  res_error r ≠ NoError →
  let st' := finished j r st in
  let svc := job_service job in
  m_credentials st' = m_credentials st
  ∧ credentials2 st' svc (job_key job) = credentials2 st svc (job_key job)
  ∧ (m_credentials st !! mkStorageKey svc (job_key job) = None →
     credentials2 st' svc (job_key job) = QVInvalid)
  ∧ DbgReadFinishedWithError svc (job_key job) (res_error r)
      (res_errorString r) ∈ logged st'
  ∧ j ∈ readJobs st svc
  ∧ (j ∉ readJobs st' svc)
  ∧ readJobs st' svc = removeOne j (readJobs st svc)
  ∧ (∀ s, s ≠ svc → readJobs st' s = readJobs st s)
  ∧ emitted st' =
      emitted st ++ (if bool_decide (readJobs st' svc = [])
                     then [serviceReady svc] else [])
  ∧ (∀ cs st2,
       readJobs st' svc ≠ [] →
       Forall (notRegistering svc) cs →
       run cs st' = Some st2 →
       Forall (λ j', j' ∈ finishedJobs cs) (readJobs st' svc) →
       ∃ sigs, emitted st2 = emitted st' ++ sigs
               ∧ countReady svc sigs = 1).
Proof.
  intros Hst Hj Hc He st' svc. subst st' svc.
  pose proof (jobsConsistent_finished j r st Hst) as Hst'.
  destruct (finished_read j r st job Hj Hc)
    as (_ & Ecr & Erj & _ & _ & _ & Eem & Elog).
  rewrite bool_decide_eq_false_2 in Ecr, Elog by done.
  pose proof (λ s', readJobs_lookup st (finished j r st) _ s' _ Erj) as Hrd.
  cbv beta in Hrd.
  assert (Hrest : readJobs (finished j r st) (job_service job)
                  = removeOne j (readJobs st (job_service job))).
  { rewrite Hrd. by rewrite decide_True. }
  split; [done|]. unfold credentials2, credentials. rewrite Ecr.
  split; [done|]. split; [by intros ->|].
  split; [rewrite Elog; set_solver|].
  split; [by apply (jc_listed st Hst)|].
  split.
  { rewrite Hrest, (removeOne_filter _ _ (jc_nodup st Hst _)).
    rewrite list_elem_of_filter. by intros [? _]. }
  split; [done|].
  split; [intros s Hs; rewrite Hrd; by rewrite decide_False|].
  split; [by rewrite Hrest|].
  intros cs st2 Hne Hcs Hrun Hall.
  destruct (run_view (job_service job) cs _ st2 Hst' Hcs Hrun)
    as (sigs & E & R & C).
  exists sigs. split; [done|]. rewrite C.
  rewrite bool_decide_eq_true_2; [done|]. split; [done|].
  rewrite R. by apply filter_unfinished_nil.
Qed.

Lemma decodeCredentials_nonempty (textData : QString) :
  textData ≠ "" → isEmptyValue (decodeCredentials textData) = false.
Proof.
  intros Ht. apply not_true_is_false. rewrite isEmptyValue_spec.
  unfold decodeCredentials.
  destruct (parse (toLatin1 textData)) as [creds ok].
  rewrite hashOfMap_id. cbn [QV.toHash]. unfold isEmpty_hash.
  destruct ok; cbn [negb orb].
  - case_bool_decide; intros [|[|]]; congruence.
  - intros [|[|]]; congruence.
Qed.

(** C2. That no cache entry holds a null variant, an empty
    hash or an empty string is kept by [setCredentials] on both of its
    paths, by [addService], and by the end of every job except a read
    job that finishes without error and with an empty payload. *)
Theorem storeNonEmpty_kept (st : CredentialsManager) :
  storeNonEmpty st →
  (∀ csKey value b st',
     setCredentials csKey value b st = Some st' → storeNonEmpty st')
  ∧ (∀ service accountIds, storeNonEmpty (addService service accountIds st))
  ∧ (∀ j r,
       (∀ job, jobs st !! j = Some job →
               job_class job = ReadPasswordJob →
               res_error r = NoError → res_textData r ≠ "") →
       storeNonEmpty (finished j r st)).
Proof.
  intros Hst. split; [|split].
  - intros csKey value b st'. unfold setCredentials.
    destruct (isEmptyValue value) eqn:Hv.
    + case_bool_decide; intros [= <-]; [|done].
      rewrite dispatch_spec. intros k v. fields.
      intros [_ Hk]%lookup_delete_Some. by eapply Hst.
    + assert (Hins : ∀ m, m = <[csKey := value]> (m_credentials st) →
                 ∀ k v, m !! k = Some v → isEmptyValue v = false).
      { intros m -> k v [[_ <-]|[_ Hk]]%lookup_insert_Some; [done|].
        by eapply Hst. }
      repeat (case_match; simplify_eq/=); intros [= <-]; try done;
        rewrite ?dispatch_spec; intros k v; fields; by apply Hins.
  - intros service accountIds k v.
    destruct (addService_spec service accountIds st) as (_ & -> & _).
    apply Hst.
  - intros j r Hr. destruct (jobs st !! j) as [job|] eqn:Hj;
      [|by rewrite finished_dangling].
    destruct (decide (job_class job = ReadPasswordJob)) as [Hc|Hc].
    + destruct (finished_read j r st job Hj Hc) as (_ & Ecr & _).
      intros k v. rewrite Ecr. case_bool_decide as He; [|apply Hst].
      intros [[_ <-]|[_ Hk]]%lookup_insert_Some; [|by eapply Hst].
      apply decodeCredentials_nonempty. by eapply Hr.
    + destruct (finished_write_delete j r st job Hj Hc) as (_ & Ecr & _).
      intros k v. rewrite Ecr. apply Hst.
Qed.

(** * Further properties of the manager *)

(** ** The registry *)

Lemma elem_of_services (st : CredentialsManager) (s : QString) :
  s ∈ services st ↔ is_Some (m_services st !! s).
Proof.
  unfold services. rewrite list_elem_of_fmap. split.
  - intros ([s' ids] & -> & Hin). apply elem_of_map_to_list in Hin.
    by exists ids.
  - intros [ids Hs]. exists (s, ids). split; [done|].
    by apply elem_of_map_to_list.
Qed.

Lemma elem_of_keys (st : CredentialsManager) (svc k : QString) :
  k ∈ keys st svc ↔ is_Some (m_credentials st !! mkStorageKey svc k).
Proof.
  rewrite keys_filter, list_elem_of_fmap. split.
  - intros ([s k'] & -> & Hin). apply list_elem_of_filter in Hin as [Hs Hin].
    cbn [service key] in *. subst s.
    apply list_elem_of_fmap in Hin as ([csKey v] & -> & Hin).
    apply elem_of_map_to_list in Hin. by exists v.
  - intros [v Hv]. exists (mkStorageKey svc k). split; [done|].
    apply list_elem_of_filter. split; [done|].
    apply list_elem_of_fmap. exists (mkStorageKey svc k, v). split; [done|].
    by apply elem_of_map_to_list.
Qed.

(** X2. [addService( service, accountIds )] makes [accountIds] the key
    list registered for [service], replacing the list of an earlier
    registration, and leaves the lists of the other services alone.
    Afterwards [services()] lists [service] next to the services it listed
    before, each once. *)
Theorem addService_registers (service : QString) (accountIds : QStringList)
    (st : CredentialsManager) :
  let st' := addService service accountIds st in
  m_services st' !! service = Some accountIds
  ∧ (∀ s, s ≠ service → m_services st' !! s = m_services st !! s)
  ∧ (∀ s, s ∈ services st' ↔ s = service ∨ s ∈ services st)
  ∧ NoDup (services st').
Proof.
  intros st'. subst st'.
  destruct (addService_spec service accountIds st) as (Esv & _).
  split; [by rewrite Esv, lookup_insert_eq|].
  split; [intros s Hne; by rewrite Esv, lookup_insert_ne|].
  split.
  - intros s. rewrite !elem_of_services, Esv.
    destruct (decide (s = service)) as [->|Hne].
    + rewrite lookup_insert_eq. split; [by left|by eauto].
    + rewrite lookup_insert_ne by done. split; [by right|].
      intros [?|?]; done.
  - unfold services. apply NoDup_fst_map_to_list.
Qed.

(** X3. [addService] does not touch the cache: [credentials()] and
    [keys()] answer after the call as they did before it, so what was
    cached for a service stays cached when the service is registered again
    with other keys. *)
Theorem addService_keeps_cache (service : QString) (accountIds : QStringList)
    (st : CredentialsManager) :
  let st' := addService service accountIds st in
  (∀ csKey, credentials st' csKey = credentials st csKey)
  ∧ (∀ svc, keys st' svc = keys st svc).
Proof.
  intros st'. subst st'.
  destruct (addService_spec service accountIds st) as (_ & Ecr & _).
  split.
  - intros csKey. unfold credentials. by rewrite Ecr.
  - intros svc. unfold keys. by rewrite Ecr.
Qed.

(** ** setCredentials, seen through the getters *)

Lemma platformFallback_settings (job : Job) :
  job_autoDelete (platformFallback job) = job_autoDelete job
  ∧ job_insecureFallback (platformFallback job) =
      (if unix_not_mac then true else job_insecureFallback job).
Proof. unfold platformFallback. by destruct unix_not_mac. Qed.

Lemma dispatched_settings (job : Job) :
  job_error job = NoError →
  job_insecureFallback job = false →
  (job_class job ≠ WritePasswordJob → job_textData job = "") →
  jobSettings (platformFallback (setAutoDelete false job)).
Proof.
  intros He Hf Ht. unfold jobSettings.
  destruct (platformFallback_fields (setAutoDelete false job))
    as (-> & _ & _ & -> & ->).
  destruct (platformFallback_settings (setAutoDelete false job)) as (-> & ->).
  cbn [setAutoDelete job_autoDelete job_insecureFallback job_error
       job_class job_textData].
  rewrite Hf. by destruct unix_not_mac.
Qed.

Lemma dispatch_effect (job : Job) (st : CredentialsManager) :
  job_error job = NoError →
  job_insecureFallback job = false →
  (job_class job ≠ WritePasswordJob → job_textData job = "") →
  let st1 := dispatch job st in
  m_services st1 = m_services st
  ∧ m_credentials st1 = m_credentials st
  ∧ m_readJobs st1 = m_readJobs st
  ∧ emitted st1 = emitted st
  ∧ logged st1 = logged st
  ∧ ∃ job',
      jobs st1 = <[next_job st := job']> (jobs st)
      ∧ next_job st1 = S (next_job st)
      ∧ started st1 = started st ++ [(next_job st, job')]
      ∧ job_class job' = job_class job
      ∧ job_service job' = job_service job
      ∧ job_key job' = job_key job
      ∧ job_textData job' = job_textData job
      ∧ jobSettings job'.
Proof.
  intros He Hf Ht st1. subst st1. rewrite dispatch_spec. fields.
  split_and!; try done.
  eexists. split_and!; try done.
  - by rewrite (proj1 (platformFallback_fields _)).
  - by rewrite (proj1 (proj2 (platformFallback_fields _))).
  - by rewrite (proj1 (proj2 (proj2 (platformFallback_fields _)))).
  - by rewrite (proj1 (proj2 (proj2 (proj2 (platformFallback_fields _))))).
  - by apply dispatched_settings.
Qed.

(** All a returning call of [setCredentials] does. *)
Lemma setCredentials_effect
    (csKey : CredentialsStorageKey) (value : QVariant)
    (b : bool) (st st' : CredentialsManager) :
  setCredentials csKey value b st = Some st' →
  m_services st' = m_services st
  ∧ m_readJobs st' = m_readJobs st
  ∧ emitted st' = emitted st
  ∧ m_credentials st' =
      (if isEmptyValue value then delete csKey (m_credentials st)
       else <[csKey := value]> (m_credentials st))
  ∧ (st' = st
     ∨ ∃ job,
         jobs st' = <[next_job st := job]> (jobs st)
         ∧ next_job st' = S (next_job st)
         ∧ started st' = started st ++ [(next_job st, job)]
         ∧ job_class job =
             (if isEmptyValue value then DeletePasswordJob
              else WritePasswordJob)
         ∧ job_service job = service csKey
         ∧ job_key job = key csKey
         ∧ jobSettings job
         ∧ (isEmptyValue value = false →
            QV.type value = TString ∨ QV.type value = THash)).
Proof.
  unfold setCredentials.
  destruct (isEmptyValue value) eqn:Hv.
  - case_bool_decide as Hk; intros [= <-].
    + destruct (dispatch_effect
                  (setKey (key csKey) (newJob DeletePasswordJob (service csKey)))
                  (with_credentials (delete csKey) st))
        as (E1 & E2 & E3 & E4 & _ & job & J1 & J2 & J3 & J4 & J5 & J6 & _ & J7);
        try done.
      fields. split_and!; try done.
      right. exists job. split_and!; done.
    + split_and!; try done; [|by left].
      symmetry. apply delete_id.
      destruct (m_credentials st !! csKey) eqn:E; [|done].
      exfalso. apply Hk. by eexists.
  - destruct (QV.eqb value (credentials st csKey)) eqn:Heq.
    + intros [= <-]. split_and!; try done; [|by left].
      apply QV_eqb_eq in Heq. symmetry. apply insert_id.
      unfold credentials in Heq.
      destruct (m_credentials st !! csKey) as [v|]; cbn in Heq; [by subst|].
      subst value. done.
    + destruct (bool_decide (QV.type value = TString)
                || bool_decide (QV.type value = THash)) eqn:Hty; [|done].
      assert (Hkind : QV.type value = TString ∨ QV.type value = THash).
      { apply orb_true_iff in Hty as [H|H]; apply bool_decide_eq_true in H;
          [by left|by right]. }
      assert (Hjob : ∀ text st0,
                 m_services st0 = m_services st →
                 m_readJobs st0 = m_readJobs st →
                 emitted st0 = emitted st →
                 m_credentials st0 = <[csKey := value]> (m_credentials st) →
                 jobs st0 = jobs st → next_job st0 = next_job st →
                 started st0 = started st →
                 let st1 := dispatch
                   (setTextData text
                      (setKey (key csKey)
                         (newJob WritePasswordJob (service csKey)))) st0 in
                 m_services st1 = m_services st
                 ∧ m_readJobs st1 = m_readJobs st
                 ∧ emitted st1 = emitted st
                 ∧ m_credentials st1 = <[csKey := value]> (m_credentials st)
                 ∧ (st1 = st
                    ∨ ∃ job,
                        jobs st1 = <[next_job st := job]> (jobs st)
                        ∧ next_job st1 = S (next_job st)
                        ∧ started st1 = started st ++ [(next_job st, job)]
                        ∧ job_class job = WritePasswordJob
                        ∧ job_service job = service csKey
                        ∧ job_key job = key csKey
                        ∧ jobSettings job
                        ∧ (false = false →
                           QV.type value = TString ∨ QV.type value = THash))).
      { intros text st0 F1 F2 F3 F4 F5 F6 F7 st1. subst st1.
        destruct (dispatch_effect
                    (setTextData text
                       (setKey (key csKey)
                          (newJob WritePasswordJob (service csKey)))) st0)
          as (E1 & E2 & E3 & E4 & _ & job & J1 & J2 & J3 & J4 & J5 & J6 & _ & J7);
          try done.
        rewrite E1, E2, E3, E4, F1, F2, F3, F4. split_and!; try done.
        right. exists job. rewrite J1, J2, J3, F5, F6, F7.
        split_and!; done. }
      destruct (b && bool_decide (QV.type value = TString)).
      * intros [= <-]. by apply Hjob.
      * destruct (bool_decide (QV.type value = THash)).
        -- destruct (serialize (QV.toHash value)) as [data ok].
           destruct ok; intros [= <-]; by apply Hjob.
        -- intros [= <-]. by apply (Hjob ""%string).
Qed.

(** X4. After a returning call of [setCredentials( csKey, value, _ )],
    [credentials( csKey )] returns [value] if it is not empty and the
    invalid variant if it is; [keys()] lists the key under its service in
    the first case and not in the second.  For every other storage key
    both getters answer as before the call. *)
Theorem setCredentials_then_get
    (csKey : CredentialsStorageKey) (value : QVariant)
    (b : bool) (st st' : CredentialsManager) :
  setCredentials csKey value b st = Some st' →
  credentials st' csKey = (if isEmptyValue value then QVInvalid else value)
  ∧ (key csKey ∈ keys st' (service csKey) ↔ isEmptyValue value = false)
  ∧ (∀ other, other ≠ csKey → credentials st' other = credentials st other)
  ∧ (∀ svc k, mkStorageKey svc k ≠ csKey →
       (k ∈ keys st' svc ↔ k ∈ keys st svc)).
Proof.
  intros Hset.
  destruct (setCredentials_effect _ _ _ _ _ Hset) as (_ & _ & _ & Ecr & _).
  assert (Hk : mkStorageKey (service csKey) (key csKey) = csKey)
    by (by destruct csKey).
  unfold credentials. split_and!.
  - rewrite Ecr. destruct (isEmptyValue value).
    + by rewrite lookup_delete_eq.
    + by rewrite lookup_insert_eq.
  - rewrite elem_of_keys, Hk, Ecr. destruct (isEmptyValue value).
    + rewrite lookup_delete_eq. split; [by intros [? ?]|done].
    + rewrite lookup_insert_eq. split; [done|by eauto].
  - intros other Hne. rewrite Ecr. destruct (isEmptyValue value).
    + by rewrite lookup_delete_ne.
    + by rewrite lookup_insert_ne.
  - intros svc k Hne. rewrite !elem_of_keys, Ecr.
    destruct (isEmptyValue value).
    + by rewrite lookup_delete_ne.
    + by rewrite lookup_insert_ne.
Qed.

(** X5. The overload [setCredentials( service, key, QString )] with a
    string that is not empty and differs from the cached value caches the
    string and starts exactly one write job, for that service and key,
    whose text is the string itself; the serializer is not consulted and
    nothing is logged. *)
Theorem setCredentials_string_writes_text
    (serviceName k : QString) (s : QString) (st : CredentialsManager) :
  s ≠ "" →
  credentials2 st serviceName k ≠ QVString s →
  ∃ st' wj,
    setCredentials_string serviceName k s st = Some st'
    ∧ credentials2 st' serviceName k = QVString s
    ∧ started st' = started st ++ [(next_job st, wj)]
    ∧ job_class wj = WritePasswordJob
    ∧ job_service wj = serviceName
    ∧ job_key wj = k
    ∧ job_textData wj = s
    ∧ jobSettings wj
    ∧ logged st' = logged st
    ∧ emitted st' = emitted st.
Proof.
  intros Hs Hc. unfold credentials2 in *.
  apply not_eq_sym, QV_eqb_neq in Hc.
  unfold setCredentials_string, setCredentials.
  replace (isEmptyValue (QVString s)) with false; last first.
  { symmetry. apply not_true_is_false. rewrite isEmptyValue_spec.
    intros [|[|]]; congruence. }
  rewrite Hc. cbn [QV.type QV.toString service key].
  rewrite (bool_decide_eq_true_2 (TString = TString)) by done.
  cbn [orb andb].
  destruct (dispatch_effect
              (setTextData s (setKey k (newJob WritePasswordJob serviceName)))
              (with_credentials (<[mkStorageKey serviceName k := QVString s]>) st))
    as (_ & E2 & _ & E4 & E5 & wj & _ & _ & J3 & J4 & J5 & J6 & J7 & J8);
    try done.
  eexists _, wj. split; [reflexivity|].
  unfold credentials. rewrite E2. fields. rewrite lookup_insert_eq.
  split_and!; done.
Qed.

(** ** Writing and reading back *)

Lemma credentials_after_read (j : JobPtr) (job : Job) (text : QString)
    (st : CredentialsManager) :
  jobs st !! j = Some job →
  job_class job = ReadPasswordJob →
  credentials2 (finished j (mkResult NoError "" text) st)
    (job_service job) (job_key job)
  = decodeCredentials text.
Proof.
  intros Hj Hc. destruct (finished_read j (mkResult NoError "" text) st job Hj Hc)
    as (_ & Ecr & _).
  cbn [res_error res_textData] in Ecr.
  rewrite bool_decide_eq_true_2 in Ecr by done.
  unfold credentials2, credentials. by rewrite Ecr, lookup_insert_eq.
Qed.

(** X6. The overload [setCredentials( service, key, QVariantHash )] with
    a hash that is not empty and differs from the cached value, when the
    serializer succeeds, logs that it is about to write and starts one
    write job whose text is the serialized hash.  If the parser turns that
    text back into the same members, then any read job for the same
    service and key that later finishes without error with that text puts
    a hash equal to the one written into the cache. *)
Theorem setCredentials_hash_round_trip
    (serviceName k : QString) (h : gmap string QVariant) (data : QByteArray)
    (st : CredentialsManager) :
  h ≠ ∅ →
  credentials2 st serviceName k ≠ QVHash h →
  serialize h = (data, true) →
  parse (toLatin1 (fromAscii data)) = (QVMap h, true) →
  ∃ st' wj,
    setCredentials_hash serviceName k h st = Some st'
    ∧ logged st' = logged st ++ [DbgAboutToWrite k]
    ∧ started st' = started st ++ [(next_job st, wj)]
    ∧ job_class wj = WritePasswordJob
    ∧ job_service wj = serviceName
    ∧ job_key wj = k
    ∧ job_textData wj = fromAscii data
    ∧ ∀ st2 j rj,
        jobs st2 !! j = Some rj →
        job_class rj = ReadPasswordJob →
        job_service rj = serviceName →
        job_key rj = k →
        credentials2 (finished j (mkResult NoError "" (job_textData wj)) st2)
          serviceName k
        = QVHash h.
Proof.
  intros Hh Hc Hser Hparse. unfold credentials2 in Hc.
  apply not_eq_sym, QV_eqb_neq in Hc.
  unfold setCredentials_hash, setCredentials.
  replace (isEmptyValue (QVHash h)) with false; last first.
  { symmetry. apply not_true_is_false. rewrite isEmptyValue_spec.
    intros [|[|]]; congruence. }
  rewrite Hc. cbn [QV.type QV.toHash service key].
  rewrite (bool_decide_eq_true_2 (THash = THash)) by done.
  rewrite (bool_decide_eq_false_2 (THash = TString)) by done.
  cbn [orb andb]. rewrite Hser.
  destruct (dispatch_effect
              (setTextData (fromAscii data)
                 (setKey k (newJob WritePasswordJob serviceName)))
              (tLog (DbgAboutToWrite k)
                 (with_credentials (<[mkStorageKey serviceName k := QVHash h]>)
                    st)))
    as (_ & _ & _ & _ & E5 & wj & _ & _ & J3 & J4 & J5 & J6 & J7 & _);
    try done.
  eexists _, wj. split; [reflexivity|].
  cbn [setTextData setKey newJob job_class job_service job_key job_textData]
    in J4, J5, J6, J7.
  split_and!; try done.
  intros st2 j rj Hj Hcl <- <-. rewrite credentials_after_read by done.
  rewrite J7. unfold decodeCredentials. rewrite Hparse.
  cbn [QV.toMap QV.toHash negb orb]. rewrite hashOfMap_id.
  unfold isEmpty_hash. by rewrite bool_decide_eq_false_2.
Qed.

(** X7. A text read back without error is cached as that very string
    exactly if the parser rejects it or parses it to no members; a text
    that parses to members is cached as a hash, also when it was written
    as a plain string. *)
Theorem string_read_back (j : JobPtr) (job : Job) (text : QString)
    (st : CredentialsManager) :
  jobs st !! j = Some job →
  job_class job = ReadPasswordJob →
  let st' := finished j (mkResult NoError "" text) st in
  let parsed := parse (toLatin1 text) in
  (credentials2 st' (job_service job) (job_key job) = QVString text
   ↔ parsed.2 = false ∨ QV.toMap parsed.1 = ∅)
  ∧ (parsed.2 = true → QV.toMap parsed.1 ≠ ∅ →
     credentials2 st' (job_service job) (job_key job)
     = QVHash (QV.toMap parsed.1)).
Proof.
  intros Hj Hc st' parsed. subst st' parsed.
  rewrite credentials_after_read by done. unfold decodeCredentials.
  destruct (parse (toLatin1 text)) as [creds ok]. cbn [fst snd].
  rewrite hashOfMap_id. cbn [QV.toHash]. unfold isEmpty_hash.
  destruct ok; cbn [negb orb].
  - case_bool_decide as Hm.
    + split; [split; [by right|done]|]. by intros _ ?.
    + split; [split; [done|]|done]. intros [?|?]; done.
  - split; [split; [by left|done]|]. done.
Qed.

(** ** The end of write and delete jobs *)

(** X8. When a write job or a delete job finishes, with or without
    error, the manager only logs the outcome and lets go of the job: the
    registry, the cache, the lists of read jobs, the jobs started and the
    signals emitted stay as they are.  In particular a write that failed
    leaves the value in the cache that [setCredentials] put there. *)
Theorem write_delete_finished (j : JobPtr) (job : Job) (r : JobResult)
    (st : CredentialsManager) :
  jobs st !! j = Some job →
  job_class job ≠ ReadPasswordJob →
  let st' := finished j r st in
  let outcome := if bool_decide (res_error r = NoError)
                 then "without error" else res_errorString r in
  m_services st' = m_services st
  ∧ m_credentials st' = m_credentials st
  ∧ (∀ csKey, credentials st' csKey = credentials st csKey)
  ∧ m_readJobs st' = m_readJobs st
  ∧ started st' = started st
  ∧ emitted st' = emitted st
  ∧ jobs st' = delete j (jobs st)
  ∧ logged st' =
      logged st ++
      [DbgFuncInfo "keychainJobFinished";
       if bool_decide (job_class job = WritePasswordJob)
       then LogWriteJobFinished (job_service job) (job_key job) outcome
       else LogDeleteJobFinished (job_service job) (job_key job) outcome].
Proof.
  intros Hj Hc st' outcome. subst st' outcome.
  destruct (finished_write_delete j r st job Hj Hc)
    as (E1 & E2 & E3 & E4 & _ & E6 & E7).
  split_and!; try done.
  - intros csKey. unfold credentials. by rewrite E2.
  - destruct (recordResult_fields r job) as (Ec & Es & Ek & Ee & Em & _).
    unfold finished, keychainJobFinished. fields.
    rewrite lookup_alter_eq, Hj. cbn [fmap option_fmap option_map].
    unfold outcomeText. rewrite Ec, Es, Ek, Ee, Em.
    destruct (job_class job); [done| |]; fields;
      by rewrite <-app_assoc.
Qed.

(** ** A read that finishes after a write *)

(** X9. If a read job for a storage key is outstanding while
    [setCredentials] sets that key, and the read then finishes without
    error, the cache holds what the read decoded, whatever value the call
    had set: the cache follows the last event, not the last call. *)
Theorem read_finishes_after_set
    (j : JobPtr) (rj : Job) (value : QVariant) (b : bool) (r : JobResult)
    (st st1 : CredentialsManager) :
  jobsConsistent st →
  jobs st !! j = Some rj →
  job_class rj = ReadPasswordJob →
  setCredentials (mkStorageKey (job_service rj) (job_key rj)) value b st
    = Some st1 →
  res_error r = NoError →
  credentials2 st1 (job_service rj) (job_key rj)
    = (if isEmptyValue value then QVInvalid else value)
  ∧ credentials2 (finished j r st1) (job_service rj) (job_key rj)
    = decodeCredentials (res_textData r).
Proof.
  intros Hst Hj Hc Hset He.
  destruct (setCredentials_effect _ _ _ _ _ Hset)
    as (_ & _ & _ & Ecr & Hjobs).
  split.
  - unfold credentials2, credentials. rewrite Ecr.
    destruct (isEmptyValue value).
    + by rewrite lookup_delete_eq.
    + by rewrite lookup_insert_eq.
  - assert (Hj1 : jobs st1 !! j = Some rj).
    { destruct Hjobs as [->|(job & -> & _)]; [done|].
      rewrite lookup_insert_ne; [done|].
      pose proof (jc_bound st Hst j rj Hj). lia. }
    destruct (finished_read j r st1 rj Hj1 Hc) as (_ & E & _).
    rewrite He, bool_decide_eq_true_2 in E by done.
    unfold credentials2, credentials. by rewrite E, lookup_insert_eq.
Qed.

(** ** What holds in every state the manager reaches *)

Lemma run_invariant (P : CredentialsManager → Prop) (cs : list Call)
    (st st' : CredentialsManager) :
  (∀ c s s', P s → step c s = Some s' → P s') →
  P st → run cs st = Some st' → P st'.
Proof.
  intros Hstep. revert st. induction cs as [|c cs IH]; intros st Hst; cbn [run].
  - by intros [= <-].
  - destruct (step c st) as [st1|] eqn:E; [|done].
    apply IH. by eapply Hstep.
Qed.

Lemma jobsAsStarted_init : jobsAsStarted init.
Proof.
  unfold jobsAsStarted, init. fields. split_and!; [done| |].
  - intros i p job. by rewrite lookup_nil.
  - intros j job. by rewrite lookup_empty.
Qed.

(** Appending the jobs made at the next free addresses keeps the
    correspondence between jobs and their starts. *)
Lemma jobsAsStarted_extend (st st' : CredentialsManager)
    (new : list Job) :
  jobsAsStarted st →
  next_job st' = next_job st + length new →
  started st' = started st ++ imap (λ i job, (next_job st + i, job)) new →
  (∀ j job, jobs st' !! j = Some job →
     (j < next_job st ∧ jobs st !! j = Some job)
     ∨ (∃ i, new !! i = Some job ∧ j = next_job st + i)) →
  jobsAsStarted st'.
Proof.
  intros (Hn & Hp & Hj) Enx Est Hjobs. unfold jobsAsStarted.
  rewrite Enx, Est, length_app, length_imap. split_and!; [lia| |].
  - intros i p job Hi. apply lookup_app_Some in Hi as [Hi|[Hge Hi]].
    + by eapply Hp.
    + rewrite list_lookup_imap in Hi.
      destruct (new !! (i - length (started st))) as [job'|]; [|done].
      cbn in Hi. simplify_eq. lia.
  - intros j job Hjob. destruct (Hjobs j job Hjob) as [[Hlt Hold]|(i & Hi & ->)].
    + rewrite lookup_app_l by lia. by apply Hj.
    + rewrite lookup_app_r by lia. rewrite list_lookup_imap.
      replace (next_job st + i - length (started st)) with i by lia.
      by rewrite Hi.
Qed.

Lemma imap_readJobs (service : QString) (accountIds : QStringList) (n : nat) :
  imap (λ i key, (n + i, readJobFor service key)) accountIds
  = imap (λ i job, (n + i, job)) (readJobFor service <$> accountIds).
Proof.
  rewrite imap_fmap. by apply imap_ext.
Qed.

Lemma jobsAsStarted_step (c : Call) (st st' : CredentialsManager) :
  jobsConsistent st → jobsAsStarted st →
  step c st = Some st' → jobsAsStarted st'.
Proof.
  intros Hc Hst. destruct c as [service ids|csKey value b|j r]; cbn [step].
  - intros [= <-].
    destruct (addService_spec service ids st)
      as (_ & _ & Enx & _ & _ & Hlo & Hhi & Hnew & Est & _).
    apply (jobsAsStarted_extend st _ (readJobFor service <$> ids)); try done.
    + by rewrite length_fmap.
    + by rewrite Est, imap_readJobs.
    + intros j job Hj. destruct (decide (j < next_job st)) as [Hlt|Hge].
      * left. split; [done|]. by rewrite <-Hlo.
      * destruct (decide (j < next_job st + length ids)) as [Hlt|Hge'].
        -- right. destruct (lookup_lt_is_Some_2 ids (j - next_job st))
             as [key Hkey]; [lia|].
           exists (j - next_job st). split; [|lia].
           rewrite list_lookup_fmap, Hkey. cbn.
           specialize (Hnew _ _ Hkey).
           replace (next_job st + (j - next_job st)) with j in Hnew by lia.
           congruence.
        -- rewrite Hhi in Hj by lia. apply (jc_bound st Hc) in Hj. lia.
  - intros Hset.
    destruct (setCredentials_effect _ _ _ _ _ Hset)
      as (_ & _ & _ & _ & [->|(job & Ej & Enx & Est & _)]); [done|].
    apply (jobsAsStarted_extend st _ [job]); try done.
    + rewrite Enx. cbn. lia.
    + rewrite Est. cbn. by rewrite Nat.add_0_r.
    + intros j' job' Hj'. rewrite Ej in Hj'.
      apply lookup_insert_Some in Hj' as [[<- <-]|[Hne Hj']].
      * right. exists 0. split; [done|lia].
      * left. split; [|done]. by apply (jc_bound st Hc) in Hj'.
  - intros [= <-]. destruct (jobs st !! j) as [job|] eqn:Hj;
      [|by rewrite finished_dangling].
    assert (E : jobs (finished j r st) = delete j (jobs st)
                ∧ next_job (finished j r st) = next_job st
                ∧ started (finished j r st) = started st).
    { destruct (decide (job_class job = ReadPasswordJob)) as [Hcl|Hcl].
      - by destruct (finished_read j r st job Hj Hcl)
          as (_ & _ & _ & -> & -> & -> & _).
      - by destruct (finished_write_delete j r st job Hj Hcl)
          as (_ & _ & _ & -> & -> & -> & _). }
    destruct E as (Ej & Enx & Est). destruct Hst as (Hn & Hp & Hl).
    unfold jobsAsStarted. rewrite Ej, Enx, Est. split_and!; try done.
    intros j' job' [_ Hj']%lookup_delete_Some. by apply Hl.
Qed.

(** X10. In every state the manager reaches, the bookkeeping of jobs is
    coherent: the lists of read jobs hold exactly the read jobs that are
    alive, each once and under its own service; every job made has been
    started, in the order of making; and a job that is alive is still as
    it was started. *)
Theorem reachable_bookkeeping (st : CredentialsManager) :
  reachable st → jobsConsistent st ∧ jobsAsStarted st.
Proof.
  intros [cs Hrun].
  apply (run_invariant (λ s, jobsConsistent s ∧ jobsAsStarted s) cs init st);
    [|split; [apply jobsConsistent_init|apply jobsAsStarted_init]|done].
  intros c s s' [Hc Hs] Hstep. split.
  - by eapply jobsConsistent_step.
  - by eapply jobsAsStarted_step.
Qed.

Lemma readJobFor_settings (service key : QString) :
  jobSettings (readJobFor service key).
Proof. unfold readJobFor. by apply dispatched_settings. Qed.

(** X11. Every job the manager has started, in any state it reaches, was
    started with auto-deletion off, with the insecure fallback allowed
    exactly on the Unix platforms other than Mac, and without an error
    recorded; read and delete jobs carry no text. *)
Theorem reachable_jobSettings (st : CredentialsManager) :
  reachable st →
  ∀ j job, (j, job) ∈ started st → jobSettings job.
Proof.
  intros [cs Hrun].
  apply (run_invariant
           (λ s, ∀ j job, (j, job) ∈ started s → jobSettings job) cs init st);
    [| |done].
  - intros c s s' Hs. destruct c as [service ids|csKey value b|j r]; cbn [step].
    + intros [= <-] j job.
      destruct (addService_spec service ids s)
        as (_ & _ & _ & _ & _ & _ & _ & _ & -> & _).
      intros [Hin|Hin]%elem_of_app; [by eapply Hs|].
      apply list_elem_of_lookup in Hin as [i Hi].
      apply list_lookup_imap_Some in Hi as (key & _ & [= _ ->]).
      apply readJobFor_settings.
    + intros Hset j job.
      destruct (setCredentials_effect _ _ _ _ _ Hset)
        as (_ & _ & _ & _ & [->|(job' & _ & _ & -> & _ & _ & _ & Hjob & _)]);
        [by apply Hs|].
      intros [Hin|Hin]%elem_of_app; [by eapply Hs|].
      apply list_elem_of_singleton in Hin as [= _ ->]. done.
    + intros [= <-] j' job'. destruct (jobs s !! j) as [job|] eqn:Hj;
        [|rewrite finished_dangling by done; apply Hs].
      destruct (decide (job_class job = ReadPasswordJob)) as [Hcl|Hcl].
      * destruct (finished_read j r s job Hj Hcl)
          as (_ & _ & _ & _ & _ & -> & _). apply Hs.
      * destruct (finished_write_delete j r s job Hj Hcl)
          as (_ & _ & _ & _ & _ & -> & _). apply Hs.
  - intros j job. unfold init. fields. by intros ?%elem_of_nil.
Qed.

Lemma decodeCredentials_kind (textData : QString) :
  decodeCredentials textData = QVString textData
  ∨ ∃ h, decodeCredentials textData = QVHash h ∧ h ≠ ∅.
Proof.
  unfold decodeCredentials.
  destruct (parse (toLatin1 textData)) as [creds ok].
  rewrite hashOfMap_id. cbn [QV.toHash]. unfold isEmpty_hash.
  destruct ok; cbn [negb orb]; [|by left].
  case_bool_decide; [by left|]. right. by eexists.
Qed.

(** X12. In every state the manager reaches, no cached value is an
    invalid variant or a hash without members: of the values that
    [setCredentials] takes for a request to delete, only the empty string
    can be found in the cache. *)
Theorem reachable_cacheNeverNull (st : CredentialsManager) :
  reachable st →
  cacheNeverNull st
  ∧ ∀ csKey value, m_credentials st !! csKey = Some value →
      isEmptyValue value = true → value = QVString "".
Proof.
  intros [cs Hrun].
  assert (Hinv : cacheNeverNull st).
  { apply (run_invariant cacheNeverNull cs init st); [| |done].
    - intros c s s' Hs.
      destruct c as [service ids|csKey value b|j r]; cbn [step].
      + intros [= <-] k v.
        destruct (addService_spec service ids s) as (_ & -> & _). apply Hs.
      + intros Hset k v.
        destruct (setCredentials_effect _ _ _ _ _ Hset) as (_ & _ & _ & Ecr & _).
        rewrite Ecr. destruct (isEmptyValue value) eqn:Hv.
        * intros [_ Hk]%lookup_delete_Some. by eapply Hs.
        * intros [[_ <-]|[_ Hk]]%lookup_insert_Some; [|by eapply Hs].
          apply not_true_iff_false in Hv. rewrite isEmptyValue_spec in Hv.
          split; intros ->; apply Hv; [by left|right; by left].
      + intros [= <-] k v. destruct (jobs s !! j) as [job|] eqn:Hj;
          [|rewrite finished_dangling by done; apply Hs].
        destruct (decide (job_class job = ReadPasswordJob)) as [Hcl|Hcl].
        * destruct (finished_read j r s job Hj Hcl) as (_ & -> & _).
          case_bool_decide; [|apply Hs].
          intros [[_ <-]|[_ Hk]]%lookup_insert_Some; [|by eapply Hs].
          destruct (decodeCredentials_kind (res_textData r))
            as [->|(h & -> & ?)]; split; congruence.
        * destruct (finished_write_delete j r s job Hj Hcl) as (_ & -> & _).
          apply Hs.
    - intros k v. unfold init. fields. by rewrite lookup_empty. }
  split; [done|].
  intros csKey value Hk Hv. destruct (Hinv csKey value Hk) as [H1 H2].
  apply isEmptyValue_spec in Hv as [?|[?|?]]; done.
Qed.

Lemma step_registry (c : Call) (st st' : CredentialsManager) (s : QString) :
  step c st = Some st' →
  is_Some (m_services st !! s) → is_Some (m_services st' !! s).
Proof.
  destruct c as [service ids|csKey value b|j r]; cbn [step].
  - intros [= <-]. destruct (addService_spec service ids st) as (-> & _).
    intros Hs. destruct (decide (service = s)) as [->|Hne].
    + rewrite lookup_insert_eq. by eexists.
    + by rewrite lookup_insert_ne.
  - intros Hset. by destruct (setCredentials_effect _ _ _ _ _ Hset) as (-> & _).
  - intros [= <-]. destruct (jobs st !! j) as [job|] eqn:Hj;
      [|by rewrite finished_dangling].
    destruct (decide (job_class job = ReadPasswordJob)) as [Hcl|Hcl].
    + by destruct (finished_read j r st job Hj Hcl) as (-> & _).
    + by destruct (finished_write_delete j r st job Hj Hcl) as (-> & _).
Qed.

(** X13. The manager never unregisters a service, and in every state it
    reaches it has emitted [serviceReady] only for services that are
    registered, and every read job alive is for a registered service. *)
Theorem reachable_registeredOnly (st : CredentialsManager) :
  reachable st →
  registeredOnly st
  ∧ ∀ cs st' s, run cs st = Some st' →
      is_Some (m_services st !! s) → is_Some (m_services st' !! s).
Proof.
  intros [cs Hrun]. split.
  - apply (run_invariant registeredOnly cs init st); [| |done].
    + intros c s s' [Hsig Hjob] Hstep.
      pose proof (λ x, step_registry c s s' x Hstep) as Hmono.
      destruct c as [service ids|csKey value b|j r]; cbn [step] in Hstep.
      * injection Hstep as <-.
        destruct (addService_spec service ids s)
          as (Esv & _ & _ & _ & _ & Hlo & Hhi & Hnew & _ & Eem).
        assert (Hreg : is_Some (m_services (addService service ids s)
                                  !! service)).
        { rewrite Esv, lookup_insert_eq. by eexists. }
        split.
        -- intros x. rewrite Eem.
           intros [Hin|Hin]%elem_of_app; [by apply Hmono, Hsig|].
           case_bool_decide; [|by apply elem_of_nil in Hin].
           by apply list_elem_of_singleton in Hin as [= ->].
        -- intros j job Hj Hcl.
           destruct (decide (j < next_job s)) as [Hlt|Hge].
           ++ rewrite Hlo in Hj by done. by eapply Hmono, Hjob.
           ++ destruct (decide (j < next_job s + length ids)) as [Hlt|Hge'].
              ** destruct (lookup_lt_is_Some_2 ids (j - next_job s))
                   as [key Hkey]; [lia|].
                 specialize (Hnew _ _ Hkey).
                 replace (next_job s + (j - next_job s)) with j in Hnew by lia.
                 rewrite Hnew in Hj. injection Hj as <-.
                 by rewrite (proj1 (proj2 (readJobFor_fields service key))).
              ** rewrite Hhi in Hj by lia. by eapply Hmono, Hjob.
      * destruct (setCredentials_effect _ _ _ _ _ Hstep)
          as (_ & _ & Eem & _ & [->|(job & Ej & _ & _ & Hcl & _)]); [done|].
        split.
        -- intros x. rewrite Eem. intros Hin. by apply Hmono, Hsig.
        -- intros j' job'. rewrite Ej.
           intros [[_ <-]|[_ Hj']]%lookup_insert_Some Hcl'.
           ++ rewrite Hcl in Hcl'. by destruct (isEmptyValue value).
           ++ by eapply Hmono, Hjob.
      * injection Hstep as <-.
        destruct (jobs s !! j) as [job|] eqn:Hj;
          [|by rewrite finished_dangling].
        destruct (decide (job_class job = ReadPasswordJob)) as [Hcl|Hcl].
        -- destruct (finished_read j r s job Hj Hcl)
             as (_ & _ & _ & Ej & _ & _ & Eem & _).
           split.
           ++ intros x. rewrite Eem.
              intros [Hin|Hin]%elem_of_app; [by apply Hmono, Hsig|].
              case_bool_decide; [|by apply elem_of_nil in Hin].
              apply list_elem_of_singleton in Hin as [= ->].
              by eapply Hmono, Hjob.
           ++ intros j' job'. rewrite Ej.
              intros [_ Hj']%lookup_delete_Some Hcl'. by eapply Hmono, Hjob.
        -- destruct (finished_write_delete j r s job Hj Hcl)
             as (_ & _ & _ & Ej & _ & _ & Eem).
           split.
           ++ intros x. rewrite Eem. intros Hin. by apply Hmono, Hsig.
           ++ intros j' job'. rewrite Ej.
              intros [_ Hj']%lookup_delete_Some Hcl'. by eapply Hmono, Hjob.
    + unfold registeredOnly, init. fields. split.
      * intros s. by intros ?%elem_of_nil.
      * intros j job. by rewrite lookup_empty.
  - intros cs' st' s Hrun'. revert Hrun'.
    apply (run_invariant
             (λ x, is_Some (m_services st !! s) → is_Some (m_services x !! s))
             cs' st st'); [|done].
    intros c x x' Hx Hstep Hs. eapply step_registry; [done|]. by apply Hx.
Qed.

(** ** Readiness in general *)

(** X14. Along any run from a coherent state in which [service] is not
    registered again, the read jobs listed for the service at the end are
    those listed at the start that have not finished, and
    [serviceReady( service )] is emitted once if the list was not empty at
    the start and is empty at the end, and not at all otherwise.  So
    overlapping load cycles of a service are answered by one signal, when
    the last of their jobs has finished. *)
Theorem ready_when_drained (service : QString) (cs : list Call)
    (st st' : CredentialsManager) :
  jobsConsistent st →
  Forall (notRegistering service) cs →
  run cs st = Some st' →
  ∃ sigs,
    emitted st' = emitted st ++ sigs
    ∧ readJobs st' service =
        filter (λ j, j ∉ finishedJobs cs) (readJobs st service)
    ∧ countReady service sigs =
        if bool_decide (readJobs st service ≠ [] ∧ readJobs st' service = [])
        then 1 else 0.
Proof.
  intros Hst Hcs Hrun.
  destruct (run_view service cs st st' Hst Hcs Hrun) as (sigs & E & R & C).
  exists sigs. split; [exact E|]. split; [exact R|exact C].
Qed.

(** X15. A returning call of [setCredentials] emits no signal and leaves
    the registry and the lists of read jobs alone.  It starts no job or
    one: a delete job if the value is empty, a write job otherwise, for
    the service and the key of the storage key. *)
Theorem setCredentials_frame
    (csKey : CredentialsStorageKey) (value : QVariant)
    (b : bool) (st st' : CredentialsManager) :
  setCredentials csKey value b st = Some st' →
  emitted st' = emitted st
  ∧ m_services st' = m_services st
  ∧ (∀ s, readJobs st' s = readJobs st s)
  ∧ (started st' = started st
     ∨ ∃ job,
         started st' = started st ++ [(next_job st, job)]
         ∧ job_class job =
             (if isEmptyValue value then DeletePasswordJob
              else WritePasswordJob)
         ∧ job_service job = service csKey
         ∧ job_key job = key csKey).
Proof.
  intros Hset.
  destruct (setCredentials_effect _ _ _ _ _ Hset)
    as (Esv & Erj & Eem & _ & Hjob).
  split_and!; try done.
  - intros s. unfold readJobs. by rewrite Erj.
  - destruct Hjob as [->|(job & _ & _ & Est & Hc & Hs & Hk & _)]; [by left|].
    right. by exists job.
Qed.

(** ** Reads and writes seen through [keys()] *)

(** X16. Once a read job has finished without error, [keys()] lists its
    key under its service and [credentials()] returns a string or a hash
    with members for it; a read job that finishes with an error changes
    neither answer. *)
Theorem read_finished_then_get (j : JobPtr) (job : Job) (r : JobResult)
    (st : CredentialsManager) :
  jobs st !! j = Some job →
  job_class job = ReadPasswordJob →
  let st' := finished j r st in
  let svc := job_service job in
  (res_error r = NoError →
     job_key job ∈ keys st' svc
     ∧ ((∃ s, credentials2 st' svc (job_key job) = QVString s)
        ∨ (∃ h, credentials2 st' svc (job_key job) = QVHash h ∧ h ≠ ∅)))
  ∧ (res_error r ≠ NoError →
     (∀ s k, k ∈ keys st' s ↔ k ∈ keys st s)
     ∧ (∀ csKey, credentials st' csKey = credentials st csKey)).
Proof.
  intros Hj Hc st' svc. subst st' svc.
  destruct (finished_read j r st job Hj Hc) as (_ & Ecr & _).
  split.
  - intros He. rewrite bool_decide_eq_true_2 in Ecr by done.
    rewrite elem_of_keys. unfold credentials2, credentials.
    rewrite Ecr, lookup_insert_eq. split; [by eexists|]. cbn [default from_option id].
    destruct (decodeCredentials_kind (res_textData r)) as [->|(h & -> & ?)].
    + left. by eexists.
    + right. by exists h.
  - intros He. rewrite bool_decide_eq_false_2 in Ecr by done. split.
    + intros s k. by rewrite !elem_of_keys, Ecr.
    + intros csKey. unfold credentials. by rewrite Ecr.
Qed.

(** X17. Setting a string or a hash that is not empty and not the cached
    value, and then clearing the key with an empty string, leaves the
    cache without an entry for the key, as if only the clearing had
    happened, and has started a write job and then a delete job for the
    key.  Clearing once more changes nothing. *)
Theorem set_then_clear
    (csKey : CredentialsStorageKey) (value : QVariant) (b b' : bool)
    (st : CredentialsManager) :
  isEmptyValue value = false →
  QV.type value = TString ∨ QV.type value = THash →
  credentials st csKey ≠ value →
  ∃ st1 st2 wj dj,
    setCredentials csKey value b st = Some st1
    ∧ setCredentials csKey (QVString "") b' st1 = Some st2
    ∧ setCredentials csKey (QVString "") b' st2 = Some st2
    ∧ m_credentials st2 = delete csKey (m_credentials st)
    ∧ credentials st2 csKey = QVInvalid
    ∧ started st2 = started st ++ [(next_job st, wj); (S (next_job st), dj)]
    ∧ job_class wj = WritePasswordJob
    ∧ job_class dj = DeletePasswordJob
    ∧ job_service dj = service csKey
    ∧ job_key dj = key csKey.
Proof.
  intros Hv Hty Hne.
  assert (Hclear : isEmptyValue (QVString "") = true).
  { apply isEmptyValue_spec. right. by right. }
  destruct (setCredentials_returns csKey value b st) as [st1 H1];
    [by right|].
  destruct (setCredentials_effect _ _ _ _ _ H1)
    as (_ & _ & _ & Ecr1 & Hjob1).
  rewrite Hv in Ecr1, Hjob1.
  destruct Hjob1 as [->|(wj & _ & Enx1 & Est1 & Hcw & _)].
  { exfalso. apply Hne. unfold credentials.
    by rewrite Ecr1, lookup_insert_eq. }
  destruct (setCredentials_returns csKey (QVString "") b' st1) as [st2 H2];
    [by left|].
  destruct (setCredentials_effect _ _ _ _ _ H2)
    as (_ & _ & _ & Ecr2 & Hjob2).
  rewrite Hclear in Ecr2, Hjob2.
  assert (Ecr : m_credentials st2 = delete csKey (m_credentials st)).
  { rewrite Ecr2, Ecr1. apply delete_insert_eq. }
  destruct Hjob2 as [->|(dj & _ & _ & Est2 & Hcd & Hsd & Hkd & _)].
  { exfalso. rewrite Ecr1 in Ecr.
    apply (f_equal (λ m, m !! csKey)) in Ecr.
    by rewrite lookup_insert_eq, lookup_delete_eq in Ecr. }
  exists st1, st2, wj, dj. split_and!; try done.
  - unfold setCredentials. rewrite Hclear, Ecr, lookup_delete_eq.
    rewrite bool_decide_eq_false_2; [done|]. by intros [? ?].
  - unfold credentials. by rewrite Ecr, lookup_delete_eq.
  - rewrite Est2, Est1, Enx1, <-app_assoc. done.
Qed.

(** ** Registering a service while its reads are outstanding *)

(** X18. [addService] appends the read jobs it starts to the read jobs
    already listed for the service, and it emits [serviceReady] within
    the call exactly if the list is empty afterwards, that is, if the key
    list is empty and no read job of the service was outstanding. *)
Theorem addService_ready_iff (service : QString) (accountIds : QStringList)
    (st : CredentialsManager) :
  let st' := addService service accountIds st in
  readJobs st' service = readJobs st service ++ cycleJobs st accountIds
  ∧ length (readJobs st' service)
    = length (readJobs st service) + length accountIds
  ∧ emitted st' =
      emitted st ++
      (if bool_decide (accountIds = [] ∧ readJobs st service = [])
       then [serviceReady service] else [])
  ∧ (serviceReady service ∈ drop (length (emitted st)) (emitted st')
     ↔ readJobs st' service = []).
Proof.
  intros st'. subst st'.
  destruct (addService_spec service accountIds st)
    as (_ & _ & _ & Erj & _ & _ & _ & _ & _ & Eem).
  assert (Hnil : readJobs st service ++ cycleJobs st accountIds = []
                 ↔ accountIds = [] ∧ readJobs st service = []).
  { unfold cycleJobs. split.
    - intros [E1 E2]%app_eq_nil. split; [|done].
      apply (f_equal length) in E2. rewrite length_seq in E2.
      by destruct accountIds.
    - intros [-> ->]. done. }
  rewrite Erj, Eem, drop_app_length. split_and!.
  - done.
  - unfold cycleJobs. by rewrite length_app, length_seq.
  - apply (f_equal (λ b : bool, emitted st ++ if b then _ else _)).
    by apply bool_decide_ext.
  - case_bool_decide as H.
    + split; [done|]. intros _. apply list_elem_of_here.
    + split; [by intros ?%elem_of_nil|done].
Qed.

(** ** Storage keys whose hashes collide *)




End Manager.

(** * Closed examples

    The theorems above, applied to concrete runs of the manager with the
    codec of [Sample], and the runs on which four statements of the
    specification do not hold as they are worded. *)

Section Examples.

Import Sample.

#[local] Abbreviation addService' := (addService unix_not_mac).
#[local] Abbreviation finished' := (finished toLatin1 parse).
#[local] Abbreviation setCredentials' :=
  (setCredentials serialize fromAscii unix_not_mac).
#[local] Abbreviation run' :=
  (run toLatin1 parse serialize fromAscii unix_not_mac).

(** Two keys are registered; the reads finish in the reverse order, the
    first one with an error.  After the first completion nothing has been
    emitted; after both, one signal. *)
Lemma load_cycle_ready_once_witness :
  let c1 := JobFinished 1 (mkResult NoError "" "{user:bob}") in
  let c0 := JobFinished 0 (mkResult EntryNotFound "not found" "") in
  let st := addService' "email" ["user"; "pass"] init in
  (∃ st1 sigs,
     run' [c1] st = Some st1
     ∧ emitted st1 = emitted init ++ sigs
     ∧ countReady "email" sigs = 0)
  ∧ (∃ st2 sigs,
       run' [c1; c0] st = Some st2
       ∧ emitted st2 = emitted init ++ sigs
       ∧ countReady "email" sigs = 1).
Proof.
  intros c1 c0 st. split.
  - eexists.
    destruct (load_cycle_ready_once toLatin1 parse serialize fromAscii
                unix_not_mac init "email" ["user"; "pass"] [c1]
                (finished' 1 (mkResult NoError "" "{user:bob}") st))
      as (_ & sigs & Hem & Hpending & _).
    + apply jobsConsistent_init.
    + reflexivity.
    + exists sigs. split; [reflexivity|]. split; [exact Hem|].
      apply (Hpending 0).
      * vm_compute. apply list_elem_of_here.
      * vm_compute. intros H. apply list_elem_of_singleton in H. discriminate.
  - eexists.
    destruct (load_cycle_ready_once toLatin1 parse serialize fromAscii
                unix_not_mac init "email" ["user"; "pass"] [c1; c0]
                (finished' 0 (mkResult EntryNotFound "not found" "")
                   (finished' 1 (mkResult NoError "" "{user:bob}") st)))
      as (_ & sigs & Hem & _ & Hcount).
    + apply jobsConsistent_init.
    + reflexivity.
    + exists sigs. split; [reflexivity|]. split; [exact Hem|].
      rewrite Hcount.
      * vm_compute. reflexivity.
      * reflexivity.
      * repeat constructor.
Defined.

(** Two load cycles of one service overlap: [addService] is called again
    while the read of the first cycle is outstanding.  The one read of the
    second cycle finishes, and no [serviceReady] has been emitted since the
    call that began that cycle; when the read of the first cycle has
    finished too, [serviceReady] has been emitted once, for two cycles. *)
Lemma load_cycles_overlap :
  let st := addService' "email" ["user"] init in
  let st1 := addService' "email" ["pass"] st in
  let st2 := finished' 1 (mkResult NoError "" "secret123") st1 in
  let st3 := finished' 0 (mkResult NoError "" "bob") st2 in
  readJobs st "email" = [0]
  ∧ cycleJobs st ["pass"] = [1]
  ∧ readJobs st1 "email" = [0; 1]
  ∧ emitted st1 = emitted st
  ∧ emitted st2 = emitted st
  ∧ countReady "email" (emitted st2) = 0
  ∧ jobs st3 = ∅
  ∧ emitted st3 = [serviceReady "email"]
  ∧ countReady "email" (emitted st3) = 1.
Proof. vm_compute. repeat split. Qed.

(** The cached string is removed and a delete job is started. *)
Lemma setCredentials_delete_path_witness :
  let st := finished' 0 (mkResult NoError "" "secret123")
              (addService' "email" ["pass"] init) in
  let csKey := mkStorageKey "email" "pass" in
  is_Some (m_credentials st !! csKey)
  ∧ ∃ st' dj,
      setCredentials' csKey (QVString "") true st = Some st'
      ∧ m_credentials st' !! csKey = None
      ∧ started st' = started st ++ [(next_job st, dj)]
      ∧ job_class dj = DeletePasswordJob.
Proof.
  intros st csKey.
  assert (Hs : is_Some (m_credentials st !! csKey)) by (vm_compute; eauto).
  split; [exact Hs|].
  destruct (setCredentials_delete_path serialize fromAscii unix_not_mac
              csKey (QVString "") true st) as [_ H].
  - right. right. reflexivity.
  - destruct (H Hs) as (st' & dj & E1 & _ & E2 & _ & E3 & E4 & _).
    exists st', dj. repeat split; assumption.
Defined.

(** Setting the string that is cached already changes nothing. *)
Lemma setCredentials_same_value_witness :
  let st := finished' 0 (mkResult NoError "" "secret123")
              (addService' "email" ["pass"] init) in
  setCredentials' (mkStorageKey "email" "pass") (QVString "secret123") true st
  = Some st.
Proof.
  intros st.
  apply (setCredentials_same_value serialize fromAscii unix_not_mac
           (mkStorageKey "email" "pass") (QVString "secret123") true true st).
  - reflexivity.
  - vm_compute. reflexivity.
Defined.

(** A string set through the general overload with its default flag: the
    write job goes out without text. *)
Lemma setCredentials_string_not_as_string_witness :
  ∃ st' wj,
    setCredentials' (mkStorageKey "email" "pass") (QVString "secret123")
      false init = Some st'
    ∧ credentials st' (mkStorageKey "email" "pass") = QVString "secret123"
    ∧ started st' = started init ++ [(next_job init, wj)]
    ∧ job_class wj = WritePasswordJob
    ∧ job_textData wj = "".
Proof.
  destruct (setCredentials_string_not_as_string serialize fromAscii
              unix_not_mac (mkStorageKey "email" "pass") "secret123" init)
    as (st' & wj & E1 & _ & E2 & E3 & E4 & _ & _ & _ & E5 & _).
  - discriminate.
  - vm_compute. discriminate.
  - exists st', wj. repeat split; assumption.
Defined.

(** A bundle the sample serializer rejects is written all the same. *)
Lemma setCredentials_serializer_failure_witness :
  let eve : gmap string QVariant := {[ "user" := QVString "eve" ]} in
  ∃ st' wj,
    setCredentials' (mkStorageKey "email" "login") (QVHash eve) false init
    = Some st'
    ∧ logged st' = logged init ++ [DbgCannotSerialize "login"]
    ∧ started st' = started init ++ [(next_job init, wj)]
    ∧ job_class wj = WritePasswordJob
    ∧ job_textData wj = "".
Proof.
  intros eve.
  destruct (setCredentials_serializer_failure serialize fromAscii
              unix_not_mac (mkStorageKey "email" "login") eve false "" init)
    as (st' & wj & E1 & E2 & E3 & E4 & _ & _ & E5 & _).
  - intros E. apply (f_equal (λ m : gmap string QVariant, m !! "user")) in E.
    vm_compute in E. discriminate.
  - vm_compute. discriminate.
  - vm_compute. reflexivity.
  - exists st', wj. repeat split; assumption.
Defined.

(** The payload [{user:bob}] is decoded into the bundle. *)
Lemma read_success_decodes_witness :
  let st := addService' "email" ["login"] init in
  m_credentials (finished' 0 (mkResult NoError "" "{user:bob}") st)
    !! mkStorageKey "email" "login"
  = Some (QVHash bob).
Proof.
  intros st.
  destruct (read_success_decodes toLatin1 parse 0
              (readJobFor unix_not_mac "email" "login")
              (mkResult NoError "" "{user:bob}") st) as (H & _).
  - reflexivity.
  - reflexivity.
  - reflexivity.
  - apply H. split; [reflexivity|].
    intros E. apply (f_equal (λ m : gmap string QVariant, m !! "user")) in E.
    vm_compute in E. discriminate.
Defined.

(** A read that fails after the key was cached by an earlier cycle. *)
Lemma read_failure_witness :
  let st := addService' "email" ["user"]
              (finished' 0 (mkResult NoError "" "bob")
                 (addService' "email" ["user"] init)) in
  let st' := finished' 1 (mkResult EntryNotFound "not found" "") st in
  m_credentials st' = m_credentials st
  ∧ readJobs st' "email" = []
  ∧ emitted st' = emitted st ++ [serviceReady "email"].
Proof.
  intros st st'.
  destruct (read_failure toLatin1 parse serialize fromAscii unix_not_mac 1
              (readJobFor unix_not_mac "email" "user")
              (mkResult EntryNotFound "not found" "") st)
    as (E1 & _ & _ & _ & _ & _ & E2 & _ & E3 & _).
  - apply jobsConsistent_addService, jobsConsistent_finished,
      jobsConsistent_addService, jobsConsistent_init.
  - reflexivity.
  - reflexivity.
  - discriminate.
  - split; [exact E1|]. split; [exact E2|]. exact E3.
Defined.

(** The same run, read against the specification: the read failed, and
    [credentials( service, key )] still returns the string cached by the
    earlier cycle, not the invalid variant. *)
Lemma read_failure_keeps_cached_value :
  let st := addService' "email" ["user"]
              (finished' 0 (mkResult NoError "" "bob")
                 (addService' "email" ["user"] init)) in
  let st' := finished' 1 (mkResult EntryNotFound "not found" "") st in
  let s0 := addService' "email" ["a"; "b"] init in
  let s1 := finished' 0 (mkResult EntryNotFound "not found" "") s0 in
  let s2 := addService' "email" ["c"] s1 in
  let s3 := finished' 1 (mkResult NoError "" "x") s2 in
  (jobs st !! 1 = Some (readJobFor unix_not_mac "email" "user")
   ∧ credentials2 st' "email" "user" = QVString "bob"
   ∧ credentials2 st' "email" "user" ≠ QVInvalid)
  ∧ (readJobs s0 "email" = [0; 1]
     ∧ readJobs s1 "email" = [1]
     ∧ readJobs s3 "email" = [2]
     ∧ emitted s3 = []).
Proof. vm_compute. split_and!; try reflexivity; discriminate. Qed.

(** An empty key list in the fresh manager: ready at once. *)
Lemma addService_no_keys_witness :
  started (addService' "email" [] init) = started init
  ∧ emitted (addService' "email" [] init) = emitted init ++ [serviceReady "email"].
Proof.
  destruct (addService_no_keys unix_not_mac "email" init)
    as ((E1 & _) & E2).
  split; [exact E1|]. apply E2. reflexivity.
Defined.

(** An empty key list while a read of the service is outstanding: the
    call emits nothing. *)
Lemma addService_no_keys_while_loading :
  let st := addService' "email" ["user"] init in
  readJobs st "email" = [0]
  ∧ started (addService' "email" [] st) = started st
  ∧ emitted (addService' "email" [] st) = emitted st
  ∧ serviceReady "email" ∉ emitted (addService' "email" [] st).
Proof.
  vm_compute. repeat split. apply not_elem_of_nil.
Qed.

(** A state with a cached string and an outstanding read: the invariant
    holds there, and still after a value is set, after a key is cleared,
    and after the read has finished with a payload. *)
Lemma storeNonEmpty_kept_witness :
  let st := finished' 0 (mkResult NoError "" "secret123")
              (addService' "email" ["pass"; "user"] init) in
  let pass := mkStorageKey "email" "pass" in
  let user := mkStorageKey "email" "user" in
  m_credentials st !! pass = Some (QVString "secret123")
  ∧ jobs st !! 1 = Some (readJobFor unix_not_mac "email" "user")
  ∧ storeNonEmpty st
  ∧ (∃ st1, setCredentials' user (QVString "bob") true st = Some st1
            ∧ m_credentials st1 !! user = Some (QVString "bob")
            ∧ storeNonEmpty st1)
  ∧ (∃ st2, setCredentials' pass (QVString "") true st = Some st2
            ∧ m_credentials st2 !! pass = None
            ∧ storeNonEmpty st2)
  ∧ storeNonEmpty (finished' 1 (mkResult NoError "" "{user:bob}") st).
Proof.
  intros st pass user.
  assert (H0 : storeNonEmpty init).
  { intros k v. unfold init. cbn. rewrite lookup_empty. discriminate. }
  assert (H1 : storeNonEmpty (addService' "email" ["pass"; "user"] init)).
  { apply (storeNonEmpty_kept toLatin1 parse serialize fromAscii
             unix_not_mac init H0). }
  assert (Hst : storeNonEmpty st).
  { apply (storeNonEmpty_kept toLatin1 parse serialize fromAscii
             unix_not_mac _ H1). intros job _ _ _. discriminate. }
  destruct (storeNonEmpty_kept toLatin1 parse serialize fromAscii
              unix_not_mac st Hst) as (Hset & _ & Hfin).
  split; [vm_compute; reflexivity|]. split; [vm_compute; reflexivity|].
  split; [exact Hst|]. split_and!.
  - destruct (setCredentials_returns serialize fromAscii unix_not_mac
                user (QVString "bob") true st) as [st1 E1];
      [right; left; reflexivity|].
    exists st1. split; [exact E1|]. split; [|by eapply Hset].
    destruct (setCredentials_effect serialize fromAscii unix_not_mac _ _ _ _ _ E1) as (_ & _ & _ & -> & _).
    apply lookup_insert_eq.
  - destruct (setCredentials_returns serialize fromAscii unix_not_mac
                pass (QVString "") true st) as [st2 E2];
      [left; reflexivity|].
    exists st2. split; [exact E2|]. split; [|by eapply Hset].
    destruct (setCredentials_effect serialize fromAscii unix_not_mac _ _ _ _ _ E2) as (_ & _ & _ & -> & _).
    apply lookup_delete_eq.
  - apply Hfin. intros job _ _ _. discriminate.
Defined.

(** A read that succeeds with an empty payload leaves an empty string in
    the cache. *)
Lemma read_of_empty_payload :
  let st := addService' "email" ["pass"] init in
  let st' := finished' 0 (mkResult NoError "" "") st in
  storeNonEmpty st
  ∧ m_credentials st' !! mkStorageKey "email" "pass" = Some (QVString "")
  ∧ ¬ storeNonEmpty st'.
Proof.
  intros st st'. split; [|split].
  - intros k v. replace (m_credentials st) with
      (∅ : gmap CredentialsStorageKey QVariant) by reflexivity.
    rewrite lookup_empty. discriminate.
  - vm_compute. reflexivity.
  - intros H. specialize (H (mkStorageKey "email" "pass") (QVString "")).
    assert (E : m_credentials st' !! mkStorageKey "email" "pass"
                = Some (QVString "")) by (vm_compute; reflexivity).
    specialize (H E). vm_compute in H. discriminate.
Qed.

(** ** Examples for the further properties *)

(** A string is set in the fresh manager and read through the getters. *)
Lemma setCredentials_then_get_witness :
  ∃ st',
    setCredentials' (mkStorageKey "email" "pass") (QVString "secret123")
      true init = Some st'
    ∧ credentials st' (mkStorageKey "email" "pass") = QVString "secret123"
    ∧ "pass" ∈ keys st' "email".
Proof.
  eexists. split; [reflexivity|].
  destruct (setCredentials_then_get serialize fromAscii unix_not_mac
              (mkStorageKey "email" "pass") (QVString "secret123") true init _
              eq_refl) as (E1 & E2 & _).
  split; [exact E1|]. apply E2. reflexivity.
Defined.

Lemma setCredentials_string_writes_text_witness :
  ∃ st' wj,
    setCredentials_string serialize fromAscii unix_not_mac
      "email" "pass" "secret123" init = Some st'
    ∧ started st' = [(0, wj)]
    ∧ job_class wj = WritePasswordJob
    ∧ job_textData wj = "secret123".
Proof.
  destruct (setCredentials_string_writes_text serialize fromAscii unix_not_mac
              "email" "pass" "secret123" init)
    as (st' & wj & E1 & _ & E2 & E3 & _ & _ & E4 & _).
  - discriminate.
  - vm_compute. discriminate.
  - exists st', wj. split_and!; assumption.
Defined.

(** The bundle [bob] is written and read back. *)
Lemma setCredentials_hash_round_trip_witness :
  ∃ st' wj,
    setCredentials_hash serialize fromAscii unix_not_mac
      "email" "login" bob init = Some st'
    ∧ job_textData wj = "{user:bob}"
    ∧ credentials2
        (finished' 0 (mkResult NoError "" (job_textData wj))
           (addService' "email" ["login"] init))
        "email" "login"
      = QVHash bob.
Proof.
  destruct (setCredentials_hash_round_trip toLatin1 parse serialize fromAscii
              unix_not_mac "email" "login" bob "{user:bob}" init)
    as (st' & wj & E1 & _ & _ & _ & _ & _ & E2 & E3).
  - intros E. apply (f_equal (λ m : gmap string QVariant, m !! "user")) in E.
    vm_compute in E. discriminate.
  - vm_compute. discriminate.
  - vm_compute. reflexivity.
  - vm_compute. reflexivity.
  - exists st', wj. split; [exact E1|]. split; [exact E2|].
    apply (E3 _ 0 (readJobFor unix_not_mac "email" "login")).
    + reflexivity.
    + reflexivity.
    + reflexivity.
    + reflexivity.
Defined.

(** A plain string comes back as it was written; the text of a bundle
    comes back as the bundle. *)
Lemma string_read_back_witness :
  let st := addService' "email" ["pass"] init in
  credentials2 (finished' 0 (mkResult NoError "" "secret123") st)
    "email" "pass" = QVString "secret123"
  ∧ credentials2 (finished' 0 (mkResult NoError "" "{user:bob}") st)
      "email" "pass" = QVHash bob.
Proof.
  intros st. split.
  - apply (string_read_back toLatin1 parse 0
             (readJobFor unix_not_mac "email" "pass") "secret123" st);
      [reflexivity|reflexivity|]. left. reflexivity.
  - apply (string_read_back toLatin1 parse 0
             (readJobFor unix_not_mac "email" "pass") "{user:bob}" st);
      [reflexivity|reflexivity|reflexivity|].
    intros E. apply (f_equal (λ m : gmap string QVariant, m !! "user")) in E.
    vm_compute in E. discriminate.
Defined.

(** A write fails; the cache keeps the value. *)
Lemma write_delete_finished_witness :
  ∃ st,
    setCredentials' (mkStorageKey "email" "pass") (QVString "secret123")
      true init = Some st
    ∧ let st' := finished' 0 (mkResult AccessDenied "denied" "") st in
      credentials st' (mkStorageKey "email" "pass") = QVString "secret123"
      ∧ emitted st' = []
      ∧ last (logged st')
        = Some (LogWriteJobFinished "email" "pass" "denied").
Proof.
  eexists. split; [reflexivity|].
  match goal with |- let st' := finished' 0 ?r ?st in _ =>
    destruct (write_delete_finished toLatin1 parse 0
                (platformFallback unix_not_mac
                   (setAutoDelete false
                      (setTextData "secret123"
                         (setKey "pass" (newJob WritePasswordJob "email")))))
                r st)
      as (_ & _ & E1 & _ & _ & E2 & _ & E3)
  end.
  - vm_compute. reflexivity.
  - discriminate.
  - intros st'. subst st'. split; [|split].
    + rewrite E1. vm_compute. reflexivity.
    + rewrite E2. reflexivity.
    + rewrite E3. vm_compute. reflexivity.
Defined.

(** The read of [user] is outstanding while a new value is set; the read
    then brings the old one back. *)
Lemma read_finishes_after_set_witness :
  let st := addService' "email" ["user"] init in
  ∃ st1,
    setCredentials' (mkStorageKey "email" "user") (QVString "alice") true st
      = Some st1
    ∧ credentials2 st1 "email" "user" = QVString "alice"
    ∧ credentials2 (finished' 0 (mkResult NoError "" "bob") st1)
        "email" "user" = QVString "bob".
Proof.
  intros st. eexists. split; [reflexivity|].
  match goal with |- context [finished' 0 _ ?s] =>
    destruct (read_finishes_after_set toLatin1 parse serialize fromAscii
                unix_not_mac 0 (readJobFor unix_not_mac "email" "user")
                (QVString "alice") true (mkResult NoError "" "bob") st s)
      as (E1 & E2)
  end.
  - apply jobsConsistent_addService, jobsConsistent_init.
  - reflexivity.
  - reflexivity.
  - reflexivity.
  - reflexivity.
  - split; [exact E1|]. etrans; [exact E2|]. vm_compute. reflexivity.
Defined.

(** The state after one registration with two keys and one finished
    read, as an example of a state the manager reaches. *)
Lemma reachable_bookkeeping_witness :
  let st := finished' 0 (mkResult NoError "" "bob")
              (addService' "email" ["user"; "pass"] init) in
  jobsConsistent st ∧ jobsAsStarted st.
Proof.
  intros st.
  apply (reachable_bookkeeping toLatin1 parse serialize fromAscii unix_not_mac).
  exists [CallAddService "email" ["user"; "pass"];
          JobFinished 0 (mkResult NoError "" "bob")].
  reflexivity.
Defined.

Lemma reachable_jobSettings_witness :
  let st := finished' 0 (mkResult NoError "" "bob")
              (addService' "email" ["user"; "pass"] init) in
  jobSettings unix_not_mac (readJobFor unix_not_mac "email" "pass").
Proof.
  intros st.
  apply (reachable_jobSettings toLatin1 parse serialize fromAscii unix_not_mac
           st) with (j := 1).
  - exists [CallAddService "email" ["user"; "pass"];
            JobFinished 0 (mkResult NoError "" "bob")].
    reflexivity.
  - vm_compute. apply list_elem_of_further, list_elem_of_here.
Defined.

Lemma reachable_cacheNeverNull_witness :
  cacheNeverNull (finished' 0 (mkResult NoError "" "{user:bob}")
                    (addService' "email" ["login"] init)).
Proof.
  apply (reachable_cacheNeverNull toLatin1 parse serialize fromAscii
           unix_not_mac).
  exists [CallAddService "email" ["login"];
          JobFinished 0 (mkResult NoError "" "{user:bob}")].
  reflexivity.
Defined.

Lemma reachable_registeredOnly_witness :
  registeredOnly (finished' 0 (mkResult EntryNotFound "not found" "")
                    (addService' "email" ["login"] init)).
Proof.
  apply (reachable_registeredOnly toLatin1 parse serialize fromAscii
           unix_not_mac).
  exists [CallAddService "email" ["login"];
          JobFinished 0 (mkResult EntryNotFound "not found" "")].
  reflexivity.
Defined.

(** Two overlapping registrations of one service, then both reads. *)
Lemma ready_when_drained_witness :
  let st := addService' "email" ["user"] init in
  let cs := [CallAddService "imap" ["login"];
             JobFinished 0 (mkResult NoError "" "bob")] in
  ∃ st' sigs,
    run' cs st = Some st'
    ∧ emitted st' = emitted st ++ sigs
    ∧ readJobs st' "email" = []
    ∧ countReady "email" sigs = 1.
Proof.
  intros st cs. eexists.
  destruct (ready_when_drained toLatin1 parse serialize fromAscii unix_not_mac
              "email" cs st
              (finished' 0 (mkResult NoError "" "bob")
                 (addService' "imap" ["login"] st)))
    as (sigs & E & R & C).
  - apply jobsConsistent_addService, jobsConsistent_init.
  - repeat constructor; discriminate.
  - reflexivity.
  - exists sigs. split; [reflexivity|]. split; [exact E|].
    split; [rewrite R; vm_compute; reflexivity|].
    rewrite C, R. vm_compute. reflexivity.
Defined.

Lemma setCredentials_frame_witness :
  ∃ st',
    setCredentials' (mkStorageKey "email" "pass") (QVString "secret123")
      true (addService' "email" ["pass"] init) = Some st'
    ∧ emitted st' = []
    ∧ readJobs st' "email" = [0].
Proof.
  eexists. split; [reflexivity|].
  destruct (setCredentials_frame serialize fromAscii unix_not_mac
              (mkStorageKey "email" "pass") (QVString "secret123") true
              (addService' "email" ["pass"] init) _ eq_refl)
    as (E1 & _ & E2 & _).
  split; [rewrite E1|rewrite E2]; vm_compute; reflexivity.
Defined.

Lemma read_finished_then_get_witness :
  let st := addService' "email" ["pass"] init in
  "pass" ∈ keys (finished' 0 (mkResult NoError "" "secret123") st) "email".
Proof.
  intros st.
  destruct (read_finished_then_get toLatin1 parse 0
              (readJobFor unix_not_mac "email" "pass")
              (mkResult NoError "" "secret123") st) as (H & _).
  - reflexivity.
  - reflexivity.
  - apply H. reflexivity.
Defined.

Lemma set_then_clear_witness :
  ∃ st1 st2,
    setCredentials' (mkStorageKey "email" "pass") (QVString "secret123")
      true init = Some st1
    ∧ setCredentials' (mkStorageKey "email" "pass") (QVString "") true st1
      = Some st2
    ∧ credentials st2 (mkStorageKey "email" "pass") = QVInvalid
    ∧ length (started st2) = 2.
Proof.
  destruct (set_then_clear serialize fromAscii unix_not_mac
              (mkStorageKey "email" "pass") (QVString "secret123") true true
              init)
    as (st1 & st2 & wj & dj & E1 & E2 & _ & _ & E3 & E4 & _).
  - reflexivity.
  - left. reflexivity.
  - vm_compute. discriminate.
  - exists st1, st2. split_and!; try assumption.
    rewrite E4. reflexivity.
Defined.


End Examples.
